(** * Lotto-2.py: draw statistics and the heuristic predictor

    A shallow embedding of the analysis core of [Lotto-2.py]
    ([number_frequencies], [co_occurrence], [predict_next_numbers]) and of
    the row loop of [fetch_manalotto_history], followed by the properties
    of these functions.

    Modelling choices.
    - Python [int] numbers are [Z]; occurrence counts are [nat].
    - A [dict] (and its subclasses [Counter], [defaultdict]) keeps its keys
      in insertion order, and that order is observable through [items()],
      [most_common] and the stable [sorted]: dictionaries are association
      lists in insertion order, updated in place.
    - A Python [set] of numbers is a [gset Z]; only [len], [add], [update]
      and [sorted] are used on it, none of which observes iteration order.
    - The module-level generator of [random] is a stream of raw draws,
      threaded through the calls; [_randbelow n] is the next draw reduced
      modulo [n], so that every sequence of indices is a possible run.
    - A raised exception is [Raise] with the name of its class; a [while]
      loop is run with fuel and [OutOfFuel] stands for a run that has not
      left the loop yet. *)

From Stdlib Require Import ZArith Ascii String.
From stdpp Require Import base numbers list list_numbers sorting gmap.

Local Open Scope Z_scope.

(** ** Outcomes of a call *)

Inductive result (A : Type) : Type :=
| Ok (a : A)
| Raise (exc : string)
| OutOfFuel.
Arguments Ok {A} a.
Arguments Raise {A} exc.
Arguments OutOfFuel {A}.

#[global] Instance result_ret : MRet result := fun A a => Ok a.
#[global] Instance result_bind : MBind result := fun A B k m =>
  match m with
  | Ok a => k a
  | Raise exc => Raise exc
  | OutOfFuel => OutOfFuel
  end.

(** ** Dictionaries in insertion order *)

Module Dict.
Section dict.
Context {V : Type}.

(** [d.get(k)] *)
Fixpoint get (k : Z) (d : list (Z * V)) : option V :=
match d with
| [] => None
| (k', v) :: d' => if Z.eqb k k' then Some v else get k d'
end.

(** [d[k] = v]: an existing key keeps its place, a new key goes last. *)
Fixpoint set (k : Z) (v : V) (d : list (Z * V)) : list (Z * V) :=
match d with
| [] => [(k, v)]
| (k', v') :: d' =>
  if Z.eqb k k' then (k, v) :: d' else (k', v') :: set k v d'
end.

(** [k in d] *)
Definition mem (k : Z) (d : list (Z * V)) : bool :=
match get k d with Some _ => true | None => false end.

Definition keys (d : list (Z * V)) : list Z := d.*1.
End dict.
End Dict.

(** A [Counter]: missing keys read as 0 and reading does not insert. *)
Definition Counter : Type := list (Z * nat).

Definition count_of (c : Counter) (n : Z) : nat :=
  default 0%nat (Dict.get n c).

(** [c[n] += 1] *)
Definition incr (c : Counter) (n : Z) : Counter :=
  Dict.set n (S (count_of c n)) c.

(** [Counter.update(iterable)]: one increment per element, in order. *)
Definition update (c : Counter) (elems : list Z) : Counter :=
  fold_left incr elems c.

(** ** Draw records *)

Record datetime : Type := { year : Z; month : Z; day : Z }.

(** [{"date": draw_date, "numbers": numbers}] *)
Record entry : Type := { date : datetime; numbers : list Z }.

(** ** The row loop of [fetch_manalotto_history]

    A row is the list [cols] of the texts of its cells, taken as ASCII
    text.  The interpreter's [datetime.strptime] with the format
    ["%b %d, %Y"] is a parameter, [None] standing for its [ValueError];
    so is the interpreter's limit on the number of digits [int] accepts
    (4300 by default, 0 for no limit).

    Python's [str.isdigit] and [int] also know the digits of Unicode
    outside ASCII: [isdigit] accepts a superscript two, on which [int]
    raises [ValueError], and [int] reads an Arabic-Indic three as 3.
    [isdigit] and [int] below are these functions on ASCII text only; a
    property that depends on which tokens are kept, or on what [int] makes
    of them, is stated for cells that are [ascii_text]. *)

Definition is_digit (c : ascii) : bool :=
  ((48 <=? nat_of_ascii c) && (nat_of_ascii c <=? 57))%nat.

(** [n.isdigit()] on ASCII text: at least one character and only the
    digits 0 to 9. *)
Definition isdigit (n : string) : bool :=
  match n with
  | EmptyString => false
  | _ => forallb is_digit (list_ascii_of_string n)
  end.

Definition digit_value (c : ascii) : Z := Z.of_nat (nat_of_ascii c) - 48.

(** The value of a string of decimal digits. *)
Definition decimal_value (n : string) : Z :=
  fold_left (fun acc c => 10 * acc + digit_value c) (list_ascii_of_string n) 0.

(** [s.split(sep)] for a one-character separator. *)
Fixpoint split (sep : ascii) (s : string) : list string :=
  match s with
  | EmptyString => [EmptyString]
  | String c s' =>
      if Ascii.eqb c sep then EmptyString :: split sep s'
      else match split sep s' with
           | tok :: toks => String c tok :: toks
           | [] => [String c EmptyString]
           end
  end.

(** Running a fallible call over a list, stopping at the first failure. *)
Fixpoint for_each {A B} (f : A → result B) (l : list A) : result (list B) :=
  match l with
  | [] => Ok []
  | x :: l' => y ← f x; ys ← for_each f l'; Ok (y :: ys)
  end.

Section fetch.
Variable strptime : string → option datetime.
Variable max_str_digits : nat.

(** [int(n)] on a string of the ASCII digits 0 to 9: the only failure is
    the limit on the number of digits. *)
Definition int (n : string) : result Z :=
  if ((0 <? max_str_digits) && (max_str_digits <? String.length n))%nat
  then Raise "ValueError"
  else Ok (decimal_value n).

(** [[int(n) for n in nums_str.split("-") if n.isdigit()]] *)
Definition parse_numbers (nums_str : string) : result (list Z) :=
  for_each int (filter (λ n, isdigit n = true) (split "-" nums_str)).

(** The body of [for row in rows]: the record appended for the row, if
    any. *)
Definition parse_row (cols : list string) : result (option entry) :=
  match cols with
  | date_str :: nums_str :: _ =>
      draw_date ← match strptime date_str with
                  | Some d => Ok d
                  | None => Raise "ValueError"
                  end;
      numbers ← parse_numbers nums_str;
      Ok (Some {| date := draw_date; numbers := numbers |})
  | _ => Ok None
  end.

Fixpoint rows_loop (rows : list (list string)) (results : list entry)
    : result (list entry) :=
  match rows with
  | [] => Ok results
  | cols :: rows' =>
      e ← parse_row cols;
      rows_loop rows' (match e with Some e => results ++ [e] | None => results end)
  end.

(** [results = []; for row in rows: ...; return results], and
    [except Exception: ... return []]. *)
Definition fetch_rows (rows : list (list string)) : list entry :=
  match rows_loop rows [] with
  | Ok results => results
  | _ => []
  end.
End fetch.

(** ** Analysis functions *)

Definition number_frequencies (results : list entry) : Counter :=
  fold_left (fun cnt e => update cnt (numbers e)) results [].

(** [co = defaultdict(Counter)]: reading [co[a]] for a missing [a] yields
    an empty [Counter]; the augmented assignment [co[a][b] += 1] stores the
    row under [a] (at the end when [a] is new). *)
Definition CoMatrix : Type := list (Z * Counter).

Definition row (co : CoMatrix) (a : Z) : Counter :=
  default [] (Dict.get a co).

(** [co[a][b] += 1] *)
Definition co_incr (co : CoMatrix) (a b : Z) : CoMatrix :=
  Dict.set a (incr (row co a) b) co.

(** [for b in nums: if a != b: co[a][b] += 1] *)
Definition co_inner (nums : list Z) (co : CoMatrix) (a : Z) : CoMatrix :=
  fold_left (fun co b => if Z.eqb a b then co else co_incr co a b) nums co.

(** [for a in nums: for b in nums: ...] *)
Definition co_entry (co : CoMatrix) (e : entry) : CoMatrix :=
  fold_left (co_inner (numbers e)) (numbers e) co.

Definition co_occurrence (results : list entry) : CoMatrix :=
  fold_left co_entry results [].

(** [co[a][b]] read as a number (0 when either key is missing). *)
Definition co_count (co : CoMatrix) (a b : Z) : nat :=
  count_of (row co a) b.

(** ** [sorted] and [most_common] *)

(** [sorted] is stable.  [before y x] says that [y] has to come strictly
    before [x]; an element is inserted in front of the first one that does
    not have to precede it, so elements that compare equal keep the order
    they had in the input. *)
Fixpoint sorted_insert {A} (before : A → A → bool) (x : A) (l : list A) : list A :=
  match l with
  | [] => [x]
  | y :: l' =>
      if before y x then y :: sorted_insert before x l' else x :: y :: l'
  end.

Definition sorted {A} (before : A → A → bool) (l : list A) : list A :=
  foldr (sorted_insert before) [] l.

(** [key=lambda x: x[1], reverse=True] *)
Definition by_count_desc (y x : Z * nat) : bool := (x.2 <? y.2)%nat.

(** [Counter.most_common(n)] is the first [n] items of
    [sorted(items, key=itemgetter(1), reverse=True)]: equal counts stay in
    the order first encountered. *)
Definition most_common (n : nat) (c : Counter) : list (Z * nat) :=
  take n (sorted by_count_desc c).

(** ** The random source *)

(** The state of the generator: the raw draws still to come. *)
Definition rng : Type := nat → nat.

(** The generator after one draw. *)
Definition tail_rng (r : rng) : rng := fun i => r (S i).

(** [_randbelow(n)]: a number below [n], and the generator advanced. *)
Definition randbelow (n : nat) (r : rng) : nat * rng :=
  ((r 0 `mod` n)%nat, tail_rng r).

(** [seq[i]], raising [IndexError] out of range. *)
Definition item (seq : list Z) (i : nat) : result Z :=
  match seq !! i with
  | Some x => Ok x
  | None => Raise "IndexError"
  end.

(** [random.choice(seq)] *)
Definition choice (seq : list Z) (r : rng) : result (Z * rng) :=
  match seq with
  | [] => Raise "IndexError"
  | _ =>
      let '(i, r') := randbelow (length seq) r in
      x ← item seq i; Ok (x, r')
  end.

(** The selection loop of [random.sample] on a copy [pool] of the
    population, as CPython runs it for a population of at most 21
    elements (here at most 20): with [m] elements still unselected,
    [j = _randbelow(m)], [pool[j]] is selected and the last unselected
    element is moved into the hole. *)
Fixpoint sample_loop (k m : nat) (pool : list Z) (r : rng) : result (list Z * rng) :=
  match k with
  | O => Ok ([], r)
  | S k' =>
      let '(j, r1) := randbelow m r in
      x ← item pool j;
      y ← item pool (m - 1);
      '(rest, r2) ← sample_loop k' (m - 1) (<[j := y]> pool) r1;
      Ok (x :: rest, r2)
  end.

(** [random.sample(population, k)] *)
Definition sample (population : list Z) (k : nat) (r : rng) : result (list Z * rng) :=
  if (length population <? k)%nat then Raise "ValueError"
  else sample_loop k (length population) population r.

(** ** The predictor *)

Section predict.
Variable top_n : nat.
Variable co : CoMatrix.
Variable top_nums : list Z.

(** [if len(prediction) < top_n: prediction.add(partner)] *)
Definition add_partner (prediction : gset Z) (p : Z * nat) : gset Z :=
  if (size prediction <? top_n)%nat then {[p.1]} ∪ prediction else prediction.

(** [sorted(co[seed].items(), key=lambda x: x[1], reverse=True)] *)
Definition sorted_partners (seed : Z) : list (Z * nat) :=
  sorted by_count_desc (row co seed).

(** Step 2 for one seed: up to two partners from the sorted row. *)
Definition add_partners (prediction : gset Z) (seed : Z) : gset Z :=
  if Dict.mem seed co then
    fold_left add_partner (take 2 (sorted_partners seed)) prediction
  else prediction.

(** The partners step 2 goes through for [seed]: the sorted row, and
    nothing when the guard [seed in co] fails. *)
Definition partners_of (seed : Z) : list (Z * nat) :=
  if Dict.mem seed co then sorted_partners seed else [].

(** One pass of the body of the [while] loop of step 3. *)
Definition fill_step (prediction : gset Z) (r : rng) : result (gset Z * rng) :=
  '(x, r') ← choice top_nums r; Ok ({[x]} ∪ prediction, r').

(** [while len(prediction) < top_n: prediction.add(random.choice(top_nums))];
    [fuel] bounds the number of passes. *)
Fixpoint fill (fuel : nat) (prediction : gset Z) (r : rng) : result (gset Z * rng) :=
  if (size prediction <? top_n)%nat then
    match fuel with
    | O => OutOfFuel
    | S fuel' =>
        '(prediction', r') ← fill_step prediction r;
        fill fuel' prediction' r'
    end
  else Ok (prediction, r).

(** The body of [for _ in range(n_predictions)]. *)
Definition predict_one (fuel : nat) (r : rng) : result (list Z * rng) :=
  '(seeds, r1) ← sample top_nums (min 2 (length top_nums)) r;
  let prediction : gset Z := ∅ ∪ list_to_set seeds in
  let prediction := fold_left add_partners seeds prediction in
  '(prediction, r2) ← fill fuel prediction r1;
  Ok (sorted Z.ltb (elements prediction), r2).

Fixpoint predict_loop (fuel n_predictions : nat) (r : rng) : result (list (list Z) * rng) :=
  match n_predictions with
  | O => Ok ([], r)
  | S n =>
      '(p, r1) ← predict_one fuel r;
      '(predictions, r2) ← predict_loop fuel n r1;
      Ok (p :: predictions, r2)
  end.
End predict.

(** [predict_next_numbers(results, top_n, n_predictions)]; each [while]
    loop gets [fuel] passes. *)
Definition predict_next_numbers (fuel : nat) (results : list entry)
    (top_n n_predictions : nat) (r : rng) : result (list (list Z) * rng) :=
  let freq := number_frequencies results in
  let co := co_occurrence results in
  let top_nums := (most_common 20 freq).*1 in
  predict_loop top_n co top_nums fuel n_predictions r.

(** ** The frequency table of the page *)

(** Python's order on the items [(number, count)]: by number, then by
    count. *)
Definition item_before (y x : Z * nat) : bool :=
  (y.1 <? x.1) || ((y.1 =? x.1) && (y.2 <? x.2)%nat).

(** [sorted(freq.items())] with [freq = number_frequencies(records)]: the
    rows of the frequency chart. *)
Definition freq_rows (results : list entry) : list (Z * nat) :=
  sorted item_before (number_frequencies results).

(** ** The rendering of the numbers of a draw *)

Definition digit_char (d : Z) : ascii := ascii_of_nat (48 + Z.to_nat d).

(** The decimal digits of a non-negative [n], most significant first, in
    front of [acc]; [fuel] bounds the number of digits. *)
Fixpoint digits_of (fuel : nat) (n : Z) (acc : string) : string :=
  match fuel with
  | O => acc
  | S fuel' =>
      let acc' := String (digit_char (n `mod` 10)) acc in
      if n <? 10 then acc' else digits_of fuel' (n `div` 10) acc'
  end.

(** A number has no more decimal digits than binary ones. *)
Definition digits (n : Z) : string :=
  digits_of (S (Z.to_nat (Z.log2 n))) n EmptyString.

(** [f"{n:02d}"]: at least two characters, zeros in front; the sign of a
    negative number counts as one of them. *)
Definition format_02d (n : Z) : string :=
  if n <? 0 then String "-" (digits (- n))
  else if n <? 10 then String "0" (digits n)
  else digits n.

(** [" - ".join(f"{n:02d}" for n in nums)] *)
Definition numbers_str (nums : list Z) : string :=
  String.concat " - " (format_02d <$> nums).

(** * Vocabulary of the properties *)

(** ** Records and counts *)

(** How often [n] occurs in a list of numbers. *)
Definition occurrences (n : Z) (l : list Z) : nat :=
  length (filter (λ x, x = n) l).

(** The invariant of a draw: six distinct numbers, each from 1 to 58. *)
Definition valid_numbers (nums : list Z) : Prop :=
  length nums = 6%nat ∧ NoDup nums ∧ Forall (λ n, 1 ≤ n ≤ 58) nums.

Definition valid_entry (e : entry) : Prop := valid_numbers (numbers e).

(** A number is observed when some record holds it. *)
Definition observed (results : list entry) (n : Z) : Prop :=
  ∃ e, e ∈ results ∧ n ∈ numbers e.

(** What one record adds to [co[a][b]]: every pair of a position holding
    [a] and a position holding [b], unless [a = b]. *)
Definition pair_occurrences (a b : Z) (nums : list Z) : nat :=
  if decide (a = b) then 0%nat else (occurrences a nums * occurrences b nums)%nat.

(** All the numbers of the records, in reading order. *)
Definition all_numbers (results : list entry) : list Z :=
  concat (numbers <$> results).

(** The numbers of a list in the order of their first occurrence. *)
Definition first_seen_from (acc l : list Z) : list Z :=
  fold_left (λ acc x, if decide (x ∈ acc) then acc else acc ++ [x]) l acc.

Definition first_seen (l : list Z) : list Z := first_seen_from [] l.

(** ** Orders on items *)

(** Descending counts. *)
Definition count_ge (p q : Z * nat) : Prop := (q.2 ≤ p.2)%nat.

(** The order "count descending, then number ascending". *)
Definition count_then_number (p q : Z * nat) : Prop :=
  (q.2 < p.2)%nat ∨ (p.2 = q.2 ∧ p.1 < q.1).

#[local] Instance count_then_number_dec p q : Decision (count_then_number p q).
Proof. unfold count_then_number. apply _. Defined.

(** ** Generators and runs of the fill loop *)

(** A generator is fair for a pool of [n] numbers when every index below
    [n] is drawn again after any number of draws. *)
Definition fair (n : nat) (r : rng) : Prop :=
  ∀ start i : nat, (i < n)%nat → ∃ t, (start ≤ t)%nat ∧ (r t `mod` n)%nat = i.

(** The fill loop, entered with [prediction] and generator [r], returns
    with enough fuel, and returns [top_n] numbers (or what it was entered
    with, when that was more) that include [prediction]. *)
Definition fill_returns (top_n : nat) (top_nums : list Z)
    (prediction : gset Z) (r : rng) : Prop :=
  ∃ fuel prediction' r',
    fill top_n top_nums fuel prediction r = Ok (prediction', r')
    ∧ prediction ⊆ prediction'
    ∧ size prediction' = (top_n `max` size prediction)%nat.

(** No limit on the digits of [int], or every token within the limit. *)
Definition within_limit (max_str_digits : nat) (tokens : list string) : Prop :=
  max_str_digits = 0%nat
  ∨ Forall (λ n, (String.length n ≤ max_str_digits)%nat) tokens.

(** ** Rows and cells *)

(** The records a row adds to the history when no row fails. *)
Definition row_entries (strptime : string → option datetime)
    (max_str_digits : nat) (cols : list string) : list entry :=
  match parse_row strptime max_str_digits cols with
  | Ok (Some e) => [e]
  | _ => []
  end.

(** A character of the ASCII range: the top bit is clear. *)
Definition ascii_char (c : ascii) : bool :=
  match c with
  | Ascii _ _ _ _ _ _ _ b7 => negb b7
  end.

(** A cell of ASCII characters only, the cells the row model covers. *)
Definition ascii_text (s : string) : Prop :=
  forallb ascii_char (list_ascii_of_string s) = true.

(** A token has more digits than [int] accepts. *)
Definition over_limit (max_str_digits : nat) (n : string) : Prop :=
  (0 < max_str_digits)%nat ∧ (max_str_digits < String.length n)%nat.

#[local] Instance over_limit_dec max_str_digits n : Decision (over_limit max_str_digits n).
Proof. unfold over_limit. apply _. Defined.

(** The order of Python's tuples on items. *)
Definition tuple_lt (p q : Z * nat) : Prop :=
  p.1 < q.1 ∨ (p.1 = q.1 ∧ (p.2 < q.2)%nat).

(** ** Example inputs *)

(** A record of the draw of Sep 2, 2025 with the given numbers. *)
Definition draw (nums : list Z) : entry :=
  {| date := {| year := 2025; month := 9; day := 2 |}; numbers := nums |}.

(** The three draws used as a running example. *)
Definition three_draws : list entry :=
  [draw [1; 2; 3; 4; 5; 6]; draw [1; 2; 7; 8; 9; 10]; draw [1; 3; 7; 11; 12; 13]].

(** Two draws with disjoint numbers, the larger numbers drawn first. *)
Definition two_draws : list entry :=
  [draw [7; 8; 9; 10; 11; 12]; draw [1; 2; 3; 4; 5; 6]].

(** A record as the scraper can build it from a short row. *)
Definition short_draw : list entry := [draw [4; 8; 15]].

(** A single draw; its pool holds exactly six numbers. *)
Definition one_draw : list entry := [draw [1; 2; 3; 4; 5; 6]].

(** The combination after the seeding and partner steps on [one_draw]
    when every draw is index 0: seeds 1 and 6, partners 2 and 3. *)
Definition seeded : gset Z := {[1; 2; 3; 6]}.

(** A generator whose draws are 3, 10, 17, ... *)
Definition stride_rng : rng := fun i => (i * 7 + 3)%nat.

(** A generator that always draws index 0. *)
Definition zero_rng : rng := fun _ => 0%nat.

(** A generator whose draws are 0, 1, 2, ... *)
Definition counting_rng : rng := fun i => i.

(** A date parser that accepts every cell, for the examples. *)
Definition any_date (date_str : string) : option datetime :=
  Some {| year := 2025; month := 9; day := 2 |}.

(** A date parser that rejects every cell. *)
Definition no_date (date_str : string) : option datetime := None.

(** * Properties *)

(** ** Dictionaries *)

Module DictFacts.
Section facts.
Context {V : Type}.
Implicit Types (d : list (Z * V)) (k : Z) (v : V).

Lemma get_set_eq d k v : Dict.get k (Dict.set k v d) = Some v.
Proof.
induction d as [|[k' v'] d IH]; simpl.
- by rewrite Z.eqb_refl.
- destruct (Z.eqb_spec k k') as [->|Hne]; simpl.
+ by rewrite Z.eqb_refl.
+ by destruct (Z.eqb_spec k k').
Qed.

Lemma get_set_ne d k k' v :
k ≠ k' → Dict.get k' (Dict.set k v d) = Dict.get k' d.
Proof.
intros Hne. induction d as [|[k0 v0] d IH]; simpl.
- by destruct (Z.eqb_spec k' k) as [->|].
- destruct (Z.eqb_spec k k0) as [->|Hk]; simpl.
+ destruct (Z.eqb_spec k' k0) as [->|]; done.
+ by rewrite IH.
Qed.

Lemma get_None d k : Dict.get k d = None ↔ k ∉ Dict.keys d.
Proof.
unfold Dict.keys. induction d as [|[k' v'] d IH]; simpl.
- split; [intros _; apply not_elem_of_nil | done].
- rewrite not_elem_of_cons.
destruct (Z.eqb_spec k k') as [->|Hne]; [|tauto].
split; [done | by intros []].
Qed.

Lemma get_Some_elem d k v : Dict.get k d = Some v → (k, v) ∈ d.
Proof.
induction d as [|[k' v'] d IH]; simpl; [done|].
destruct (Z.eqb_spec k k') as [->|Hne].
- intros [= ->]. left.
- intros H. right. auto.
Qed.

Lemma elem_get d k v : NoDup (Dict.keys d) → (k, v) ∈ d → Dict.get k d = Some v.
Proof.
unfold Dict.keys. induction d as [|[k' v'] d IH]; simpl.
- intros _ H. by apply elem_of_nil in H.
- rewrite NoDup_cons. intros [Hk Hd] [[= -> ->]|Hin]%elem_of_cons.
+ by rewrite Z.eqb_refl.
+ destruct (Z.eqb_spec k k') as [->|Hne]; [|auto].
  destruct Hk. apply (list_elem_of_fmap_2 fst) in Hin. done.
Qed.

Lemma mem_true d k : Dict.mem k d = true ↔ k ∈ Dict.keys d.
Proof.
unfold Dict.mem. destruct (Dict.get k d) eqn:E.
- split; [intros _|done]. apply get_Some_elem in E.
by apply (list_elem_of_fmap_2 fst) in E.
- apply get_None in E. split; [done | by intros ?].
Qed.

(** A store keeps the place of a known key and appends a new one. *)
Lemma keys_set d k v :
Dict.keys (Dict.set k v d) =
if Dict.mem k d then Dict.keys d else Dict.keys d ++ [k].
Proof.
unfold Dict.keys, Dict.mem. induction d as [|[k' v'] d IH]; [done|].
cbn [Dict.set Dict.get]. destruct (Z.eqb_spec k k') as [->|Hne]; [done|].
rewrite !fmap_cons, IH. by destruct (Dict.get k d).
Qed.

Lemma keys_set_NoDup d k v :
NoDup (Dict.keys d) → NoDup (Dict.keys (Dict.set k v d)).
Proof.
intros Hd. rewrite keys_set. destruct (Dict.mem k d) eqn:E; [done|].
apply NoDup_app. split_and!; [done| |apply NoDup_singleton].
intros x Hx ->%list_elem_of_singleton.
apply mem_true in Hx. congruence.
Qed.

Lemma elem_of_keys_set d k v x :
x ∈ Dict.keys (Dict.set k v d) ↔ x = k ∨ x ∈ Dict.keys d.
Proof.
rewrite keys_set. destruct (Dict.mem k d) eqn:E.
- apply mem_true in E. split; [tauto | by intros [->|?]].
- rewrite elem_of_app, list_elem_of_singleton. tauto.
Qed.
End facts.
End DictFacts.

(** ** Counters *)

Section counter_facts.
Implicit Types (c : Counter) (n m : Z) (l : list Z).
Local Open Scope nat_scope.

Lemma occurrences_cons n x l :
  occurrences n (x :: l) = (if decide (x = n) then 1 else 0) + occurrences n l.
Proof. unfold occurrences. rewrite filter_cons. by case_decide. Qed.

Lemma occurrences_pos n l : 0 < occurrences n l ↔ n ∈ l.
Proof.
  induction l as [|x l IH].
  - split; [inversion 1 | by intros ?%elem_of_nil].
  - rewrite occurrences_cons, elem_of_cons. case_decide; subst.
    + split; [by left | lia].
    + rewrite <- IH. split; [intros; right; lia | intros [|]; [congruence | lia]].
Qed.

Lemma occurrences_NoDup n l : NoDup l → occurrences n l ≤ 1.
Proof.
  induction 1 as [|x l Hx Hl IH]; [cbv; lia|].
  rewrite occurrences_cons. case_decide; [subst|lia].
  pose proof (proj1 (occurrences_pos n l)). destruct (occurrences n l); [lia|].
  destruct Hx. auto with lia.
Qed.

Lemma count_of_incr c n m :
  count_of (incr c n) m = count_of c m + (if decide (n = m) then 1 else 0).
Proof.
  unfold incr, count_of at 1. case_decide; subst.
  - rewrite DictFacts.get_set_eq. simpl. lia.
  - rewrite DictFacts.get_set_ne by done. fold (count_of c m). lia.
Qed.

Lemma count_of_update c l m :
  count_of (update c l) m = count_of c m + occurrences m l.
Proof.
  unfold update. revert c. induction l as [|x l IH]; intros c; simpl.
  - unfold occurrences. simpl. lia.
  - rewrite IH, count_of_incr, occurrences_cons. lia.
Qed.

Lemma count_of_frequencies_from c results m :
  count_of (fold_left (λ cnt e, update cnt (numbers e)) results c) m
  = count_of c m + sum_list_with (λ e, occurrences m (numbers e)) results.
Proof.
  revert c. induction results as [|e results IH]; intros c; simpl; [lia|].
  rewrite IH, count_of_update. lia.
Qed.

(** The count of a number is the number of its occurrences in the records. *)
Lemma count_of_number_frequencies results m :
  count_of (number_frequencies results) m
  = sum_list_with (λ e, occurrences m (numbers e)) results.
Proof. unfold number_frequencies. by rewrite count_of_frequencies_from. Qed.

Lemma count_of_pos_observed results m :
  0 < count_of (number_frequencies results) m ↔ observed results m.
Proof.
  rewrite count_of_number_frequencies. unfold observed.
  induction results as [|e results IH]; simpl.
  - split; [lia | by intros (? & ?%elem_of_nil & _)].
  - split.
    + intros H. destruct (decide (0 < occurrences m (numbers e))) as [Hm|Hm].
      * exists e. split; [left | by apply occurrences_pos].
      * destruct IH as [(e' & ? & ?) _]; [lia|]. exists e'. split; [by right | done].
    + intros (e' & [->|Hin]%elem_of_cons & Hm).
      * apply occurrences_pos in Hm. lia.
      * destruct IH as [_ IH]. specialize (IH (ex_intro _ e' (conj Hin Hm))). lia.
Qed.

Lemma keys_incr c n :
  Dict.keys (incr c n) = if Dict.mem n c then Dict.keys c else Dict.keys c ++ [n].
Proof. apply DictFacts.keys_set. Qed.

Lemma keys_update_NoDup c l : NoDup (Dict.keys c) → NoDup (Dict.keys (update c l)).
Proof.
  unfold update. revert c. induction l as [|x l IH]; intros c Hc; simpl; [done|].
  apply IH. by apply DictFacts.keys_set_NoDup.
Qed.

Lemma elem_of_keys_update c l x :
  x ∈ Dict.keys (update c l) ↔ x ∈ Dict.keys c ∨ x ∈ l.
Proof.
  unfold update. revert c. induction l as [|y l IH]; intros c; simpl.
  - rewrite elem_of_nil. tauto.
  - rewrite IH. unfold incr. rewrite DictFacts.elem_of_keys_set, elem_of_cons. tauto.
Qed.

(** Summing the counts over a duplicate-free range [L]. *)
Lemma sum_count_incr (L : list Z) c x :
  NoDup L →
  sum_list_with (count_of (incr c x)) L
  = sum_list_with (count_of c) L + (if decide (x ∈ L) then 1 else 0).
Proof.
  induction 1 as [|y L Hy HL IH]; cbn [sum_list_with].
  - rewrite decide_False by apply not_elem_of_nil. done.
  - rewrite IH, count_of_incr.
    destruct (decide (x ∈ L)) as [Hx|Hx], (decide (x ∈ y :: L)) as [Hx'|Hx'],
      (decide (x = y)) as [Hxy|Hxy]; try lia; exfalso; subst;
      rewrite ?elem_of_cons in *; intuition.
Qed.

Lemma sum_count_update (L : list Z) c l :
  NoDup L → Forall (λ x, x ∈ L) l →
  sum_list_with (count_of (update c l)) L
  = sum_list_with (count_of c) L + length l.
Proof.
  intros HL Hl. unfold update. revert c.
  induction Hl as [|x l Hx Hl IH]; intros c; simpl; [lia|].
  rewrite IH, sum_count_incr by done. rewrite decide_True by done. lia.
Qed.

Lemma sum_count_frequencies_from (L : list Z) (k : nat) c results :
  NoDup L →
  Forall (λ e, length (numbers e) = k ∧ Forall (λ x, x ∈ L) (numbers e)) results →
  sum_list_with (count_of (fold_left (λ cnt e, update cnt (numbers e)) results c)) L
  = sum_list_with (count_of c) L + k * length results.
Proof.
  intros HL HR. revert c.
  induction HR as [|e results [Hlen He] HR IH]; intros c; simpl; [lia|].
  rewrite IH, sum_count_update by done. lia.
Qed.
End counter_facts.

Lemma three_draws_valid : Forall valid_entry three_draws.
Proof.
  unfold three_draws, valid_entry, valid_numbers.
  repeat apply Forall_cons_2; try apply Forall_nil_2; simpl;
    (split_and!; [done | compute_done | compute_done]).
Defined.

(** ** Frequency conservation *)

(** C4: for records of six distinct numbers between 1 and 58, the counts
    of [number_frequencies] summed over the numbers 1 to 58 are six times
    the number of records. *)
Theorem frequency_conservation (results : list entry) :
  Forall valid_entry results →
  sum_list_with (count_of (number_frequencies results)) (seqZ 1 58)
  = (6 * length results)%nat.
Proof.
  intros HR. unfold number_frequencies.
  rewrite (sum_count_frequencies_from (seqZ 1 58) 6).
  - clear. induction (seqZ 1 58); simpl; auto.
  - apply NoDup_seqZ.
  - eapply Forall_impl; [exact HR|]. intros e (Hlen & _ & Hrange).
    split; [done|]. eapply Forall_impl; [exact Hrange|].
    intros x Hx. simpl in Hx. apply elem_of_seqZ. lia.
Qed.

Lemma frequency_conservation_witness :
  sum_list_with (count_of (number_frequencies three_draws)) (seqZ 1 58) = 18%nat.
Proof. exact (frequency_conservation three_draws three_draws_valid). Defined.

(** ** Co-occurrence counts *)

Section co_facts.
Implicit Types (co : CoMatrix) (a b : Z) (nums : list Z).
Local Open Scope nat_scope.

Lemma row_co_incr co a b a' :
  row (co_incr co a b) a' = if decide (a = a') then incr (row co a) b else row co a'.
Proof.
  unfold row at 1, co_incr. case_decide; subst.
  - by rewrite DictFacts.get_set_eq.
  - by rewrite DictFacts.get_set_ne.
Qed.

Lemma co_count_incr co a b a' b' :
  co_count (co_incr co a b) a' b'
  = co_count co a' b' + (if decide (a = a' ∧ b = b') then 1 else 0).
Proof.
  unfold co_count. rewrite row_co_incr.
  destruct (decide (a = a')) as [->|Ha].
  - rewrite count_of_incr. repeat case_decide; intuition (subst; first [lia | congruence]).
  - rewrite decide_False by tauto. lia.
Qed.

Lemma co_count_inner nums co a a' b' :
  co_count (co_inner nums co a) a' b'
  = co_count co a' b'
    + (if decide (a = a' ∧ a' ≠ b') then occurrences b' nums else 0).
Proof.
  unfold co_inner. revert co. induction nums as [|b nums IH]; intros co; simpl.
  - case_decide; unfold occurrences; simpl; lia.
  - rewrite IH, occurrences_cons. destruct (Z.eqb_spec a b) as [->|Hab].
    + repeat case_decide; intuition (subst; first [lia | congruence]).
    + rewrite co_count_incr. repeat case_decide; intuition (subst; first [lia | congruence]).
Qed.

Lemma co_count_outer nums l co a' b' :
  co_count (fold_left (co_inner nums) l co) a' b'
  = co_count co a' b'
    + (if decide (a' = b') then 0 else occurrences a' l * occurrences b' nums).
Proof.
  revert co. induction l as [|a l IH]; intros co; simpl.
  - case_decide; unfold occurrences; simpl; lia.
  - rewrite IH, co_count_inner, occurrences_cons.
    repeat case_decide; intuition (subst; first [lia | congruence]).
Qed.

Lemma co_count_entry co e a b :
  co_count (co_entry co e) a b = co_count co a b + pair_occurrences a b (numbers e).
Proof. unfold co_entry, pair_occurrences. apply co_count_outer. Qed.

Lemma co_count_from co results a b :
  co_count (fold_left co_entry results co) a b
  = co_count co a b + sum_list_with (λ e, pair_occurrences a b (numbers e)) results.
Proof.
  revert co. induction results as [|e results IH]; intros co; simpl; [lia|].
  rewrite IH, co_count_entry. lia.
Qed.

(** [co[a][b]] counts the pairs of positions of [a] and [b] in the records. *)
Lemma co_count_co_occurrence results a b :
  co_count (co_occurrence results) a b
  = sum_list_with (λ e, pair_occurrences a b (numbers e)) results.
Proof. unfold co_occurrence. by rewrite co_count_from. Qed.

Lemma pair_occurrences_sym a b nums :
  pair_occurrences a b nums = pair_occurrences b a nums.
Proof. unfold pair_occurrences. repeat case_decide; try congruence; lia. Qed.

Lemma pair_occurrences_le a b nums :
  NoDup nums →
  pair_occurrences a b nums ≤ occurrences a nums
  ∧ pair_occurrences a b nums ≤ occurrences b nums.
Proof.
  intros Hnd. unfold pair_occurrences.
  pose proof (occurrences_NoDup a nums Hnd).
  pose proof (occurrences_NoDup b nums Hnd).
  case_decide; nia.
Qed.
End co_facts.

(** ** Symmetry and bound of the co-occurrence counts *)

(** C5: the co-occurrence counts built by [co_occurrence] are symmetric,
    [co[a][b] == co[b][a]], for every record set and every pair of numbers
    (in particular every pair of distinct numbers). *)
Theorem co_occurrence_symmetric (results : list entry) (a b : Z) :
  co_count (co_occurrence results) a b = co_count (co_occurrence results) b a.
Proof.
  rewrite !co_count_co_occurrence.
  induction results as [|e results IH]; simpl; [done|].
  by rewrite IH, pair_occurrences_sym.
Qed.

(** C6: when every record holds distinct numbers, [co[a][b]] is at most the
    smaller of the frequency counts of [a] and [b] built from the same
    records. *)
Theorem co_occurrence_bound (results : list entry) (a b : Z) :
  Forall (λ e, NoDup (numbers e)) results →
  (co_count (co_occurrence results) a b
   ≤ count_of (number_frequencies results) a `min` count_of (number_frequencies results) b)%nat.
Proof.
  intros HR. rewrite co_count_co_occurrence, !count_of_number_frequencies.
  apply Nat.min_glb; induction HR as [|e results He HR IH]; simpl; try lia;
    destruct (pair_occurrences_le a b (numbers e) He); lia.
Qed.

Lemma co_occurrence_bound_witness :
  (co_count (co_occurrence three_draws) 1 2
   ≤ count_of (number_frequencies three_draws) 1 `min` count_of (number_frequencies three_draws) 2)%nat.
Proof.
  apply (co_occurrence_bound three_draws 1 2).
  eapply Forall_impl; [exact three_draws_valid|]. by intros e (_ & ? & _).
Defined.

(** ** The stable sort *)

Section sorted_facts.
Context {A : Type} (before : A → A → bool).
Implicit Types (x y : A) (l : list A).

Lemma sorted_insert_Permutation x l : sorted_insert before x l ≡ₚ x :: l.
Proof.
  induction l as [|y l IH]; simpl; [done|].
  destruct (before y x); [|done]. rewrite IH. apply Permutation_swap.
Qed.

Lemma sorted_Permutation l : sorted before l ≡ₚ l.
Proof.
  induction l as [|x l IH]; simpl; [done|].
  by rewrite sorted_insert_Permutation, IH.
Qed.

Lemma sorted_length l : length (sorted before l) = length l.
Proof. apply Permutation_length, sorted_Permutation. Qed.

Lemma elem_of_sorted x l : x ∈ sorted before l ↔ x ∈ l.
Proof. by rewrite sorted_Permutation. Qed.

Section order.
Context (R : relation A) `{!Transitive R}.
Hypothesis before_R : ∀ y x, before y x = true → R y x.

Lemma sorted_insert_StronglySorted x l :
  Forall (λ y, before y x = false → R x y) l →
  StronglySorted R l → StronglySorted R (sorted_insert before x l).
Proof.
  intros Hx Hl. induction Hl as [|y l Hl IH Hy]; simpl.
  - repeat constructor.
  - apply Forall_cons in Hx as [Hxy Hx].
    destruct (before y x) eqn:E.
    + constructor; [by apply IH|].
      rewrite sorted_insert_Permutation. constructor; [by apply before_R | done].
    + constructor; [by constructor|].
      constructor; [by apply Hxy|].
      eapply Forall_impl; [exact Hy|]. intros z Hz. simpl in Hz.
      by trans y; [apply Hxy|].
Qed.

(** The input order decides between elements that [before] does not
    separate. *)
Lemma sorted_StronglySorted l :
  StronglySorted (λ x y, before y x = false → R x y) l →
  StronglySorted R (sorted before l).
Proof.
  induction 1 as [|x l Hl IH Hx]; simpl; [constructor|].
  apply sorted_insert_StronglySorted; [|done].
  by rewrite sorted_Permutation.
Qed.
End order.

(** Stability: the elements of a class [P] that [before] never orders
    among themselves keep their input order. *)
Section stable.
Context (P : A → Prop) `{!∀ x, Decision (P x)}.
Hypothesis before_P : ∀ y x, before y x = true → P x → ¬ P y.

Lemma filter_sorted_insert x l :
  filter P (sorted_insert before x l) = filter P (x :: l).
Proof.
  induction l as [|y l IH]; simpl; [done|].
  destruct (before y x) eqn:E; [|done].
  rewrite filter_cons, IH, !filter_cons.
  destruct (decide (P y)) as [Hy|Hy], (decide (P x)) as [Hx|Hx]; try done.
  by destruct (before_P y x).
Qed.

Lemma filter_sorted l : filter P (sorted before l) = filter P l.
Proof.
  induction l as [|x l IH]; simpl; [done|].
  by rewrite filter_sorted_insert, !filter_cons, IH.
Qed.
End stable.
End sorted_facts.

Lemma StronglySorted_total {A} (R : relation A) (l : list A) :
  (∀ x y, R x y) → StronglySorted R l.
Proof.
  intros HR. induction l as [|x l IH]; constructor; [done|].
  apply Forall_forall. auto.
Qed.

Lemma StronglySorted_weaken {A} (R1 R2 : relation A) (l : list A) :
  (∀ x y, R1 x y → R2 x y) → StronglySorted R1 l → StronglySorted R2 l.
Proof.
  intros HR. induction 1 as [|x l Hl IH Hx]; constructor; [done|].
  eapply Forall_impl; [exact Hx | apply HR].
Qed.

Lemma StronglySorted_NoDup {A} (l : list A) :
  NoDup l → StronglySorted (≠) l.
Proof.
  induction 1 as [|x l Hx Hl IH]; constructor; [done|].
  apply Forall_forall. intros y Hy ->. done.
Qed.

(** [sorted(s)] of distinct numbers is strictly ascending. *)
Lemma sorted_ltb_ascending (l : list Z) :
  NoDup l → StronglySorted Z.lt (sorted Z.ltb l).
Proof.
  intros Hl. apply sorted_StronglySorted.
  - apply _.
  - intros y x. apply Z.ltb_lt.
  - eapply StronglySorted_weaken; [|by apply StronglySorted_NoDup].
    intros x y Hne Hlt. apply Z.ltb_ge in Hlt.
    destruct (decide (x = y)); [done | lia].
Qed.

Lemma count_ge_trans : Transitive count_ge.
Proof. unfold count_ge. intros p q r. lia. Qed.

Lemma sorted_by_count_desc (c : Counter) :
  StronglySorted count_ge (sorted by_count_desc c).
Proof.
  apply sorted_StronglySorted.
  - apply count_ge_trans.
  - unfold by_count_desc, count_ge. intros y x ?%Nat.ltb_lt. lia.
  - apply StronglySorted_total. unfold by_count_desc, count_ge.
    intros x y ?%Nat.ltb_ge. lia.
Qed.

(** Items of equal count keep the order they have in the dictionary. *)
Lemma sorted_by_count_desc_stable (c : Counter) (v : nat) :
  filter (λ p, p.2 = v) (sorted by_count_desc c) = filter (λ p, p.2 = v) c.
Proof.
  apply filter_sorted. unfold by_count_desc.
  intros y x ?%Nat.ltb_lt. lia.
Qed.

(** ** Insertion order of the frequency counter *)

Lemma keys_update (c : Counter) (l : list Z) :
  Dict.keys (update c l) = first_seen_from (Dict.keys c) l.
Proof.
  unfold update, first_seen_from. revert c.
  induction l as [|x l IH]; intros c; simpl; [done|].
  rewrite IH, keys_incr. destruct (Dict.mem x c) eqn:E.
  - apply DictFacts.mem_true in E. by rewrite decide_True.
  - rewrite decide_False; [done|]. intros ?%DictFacts.mem_true. congruence.
Qed.

Lemma number_frequencies_update_from (c : Counter) (results : list entry) :
  fold_left (λ cnt e, update cnt (numbers e)) results c
  = update c (all_numbers results).
Proof.
  unfold all_numbers, update. revert c.
  induction results as [|e results IH]; intros c; simpl; [done|].
  by rewrite IH, fold_left_app.
Qed.

Lemma number_frequencies_update (results : list entry) :
  number_frequencies results = update [] (all_numbers results).
Proof. apply number_frequencies_update_from. Qed.

(** The keys of the counter are the numbers in first-seen order. *)
Lemma keys_number_frequencies (results : list entry) :
  Dict.keys (number_frequencies results) = first_seen (all_numbers results).
Proof. by rewrite number_frequencies_update, keys_update. Qed.

Lemma number_frequencies_NoDup (results : list entry) :
  NoDup (Dict.keys (number_frequencies results)).
Proof.
  rewrite number_frequencies_update. apply keys_update_NoDup. constructor.
Qed.

Lemma elem_of_all_numbers (results : list entry) (n : Z) :
  n ∈ all_numbers results ↔ observed results n.
Proof.
  unfold all_numbers, observed. induction results as [|e results IH]; simpl.
  - split; [by intros ?%elem_of_nil | by intros (? & ?%elem_of_nil & _)].
  - rewrite elem_of_app, IH. split.
    + intros [Hn|(e' & He' & Hn)]; [exists e | exists e']; split; try done;
        [left | by right].
    + intros (e' & [->|He']%elem_of_cons & Hn); eauto.
Qed.

Lemma elem_of_keys_number_frequencies (results : list entry) (n : Z) :
  n ∈ Dict.keys (number_frequencies results) ↔ observed results n.
Proof.
  rewrite number_frequencies_update, elem_of_keys_update, elem_of_all_numbers.
  unfold Dict.keys. simpl. rewrite elem_of_nil. tauto.
Qed.

(** An item of the counter carries the count of its number. *)
Lemma item_count_of (c : Counter) (p : Z * nat) :
  NoDup (Dict.keys c) → p ∈ c → p.2 = count_of c p.1.
Proof.
  intros Hc Hp. destruct p as [n v]. unfold count_of. simpl.
  by rewrite (DictFacts.elem_get c n v).
Qed.

Lemma filter_fmap_fst (c : Counter) (Q : Z → Prop) `{!∀ n, Decision (Q n)} :
  filter Q c.*1 = (filter (λ p, Q p.1) c).*1.
Proof.
  induction c as [|p c IH]; [done|].
  rewrite fmap_cons, (filter_cons Q), (filter_cons (λ p : Z * nat, Q p.1)), IH.
  by destruct (decide (Q p.1)).
Qed.

Lemma filter_ext_in {A} (P Q : A → Prop) `{!∀ x, Decision (P x)}
    `{!∀ x, Decision (Q x)} (l : list A) :
  Forall (λ x, P x ↔ Q x) l → filter P l = filter Q l.
Proof.
  induction 1 as [|x l Hx Hl IH]; [done|].
  rewrite !filter_cons, IH. repeat case_decide; tauto.
Qed.

(** ** Invariants of the co-occurrence dictionary *)

Section co_invariant.
Variable I : CoMatrix → Prop.
Variable P : Z → Prop.
Hypothesis step : ∀ co a b, P a → P b → a ≠ b → I co → I (co_incr co a b).

Lemma co_inner_invariant nums co a :
  P a → Forall P nums → I co → I (co_inner nums co a).
Proof.
  intros Ha Hnums. unfold co_inner. revert co.
  induction Hnums as [|b nums Hb Hnums IH]; intros co Hco; simpl; [done|].
  apply IH. destruct (Z.eqb_spec a b); [done | by apply step].
Qed.

Lemma co_outer_invariant nums l co :
  Forall P l → Forall P nums → I co → I (fold_left (co_inner nums) l co).
Proof.
  intros Hl Hnums. revert co.
  induction Hl as [|a l Ha Hl IH]; intros co Hco; simpl; [done|].
  by apply IH, co_inner_invariant.
Qed.

Lemma co_from_invariant results co :
  Forall (λ e, Forall P (numbers e)) results →
  I co → I (fold_left co_entry results co).
Proof.
  intros HR. revert co.
  induction HR as [|e results He HR IH]; intros co Hco; simpl; [done|].
  by apply IH, co_outer_invariant.
Qed.
End co_invariant.

(** An invariant of [co[a][b] += 1] on observed pairs holds of the result
    of [co_occurrence]. *)
Lemma co_occurrence_invariant (results : list entry) (I : CoMatrix → Prop) :
  (∀ co a b, observed results a → observed results b → a ≠ b →
     I co → I (co_incr co a b)) →
  I [] → I (co_occurrence results).
Proof.
  intros Hstep Hnil. unfold co_occurrence.
  apply (co_from_invariant I (observed results)); [done| |done].
  apply Forall_forall. intros e He. apply Forall_forall. intros n Hn.
  by exists e.
Qed.

Lemma row_nil (a : Z) : row [] a = [].
Proof. done. Qed.

Lemma co_rows_NoDup (results : list entry) (a : Z) :
  NoDup (Dict.keys (row (co_occurrence results) a)).
Proof.
  revert a. apply (co_occurrence_invariant results (λ co, ∀ a, NoDup (Dict.keys (row co a)))).
  - intros co a b _ _ _ Hco a'. rewrite row_co_incr. case_decide; [|done].
    by apply DictFacts.keys_set_NoDup.
  - intros a. constructor.
Qed.

Lemma co_keys_observed (results : list entry) (a : Z) :
  a ∈ Dict.keys (co_occurrence results) → observed results a.
Proof.
  revert a. apply (co_occurrence_invariant results (λ co, ∀ a, a ∈ Dict.keys co → _)).
  - intros co a b Ha _ _ Hco a'. unfold co_incr.
    rewrite DictFacts.elem_of_keys_set. intros [->|?]; auto.
  - by intros a ?%elem_of_nil.
Qed.

Lemma co_partners_observed (results : list entry) (a b : Z) :
  b ∈ Dict.keys (row (co_occurrence results) a) → observed results b.
Proof.
  revert a b.
  apply (co_occurrence_invariant results (λ co, ∀ a b, b ∈ Dict.keys (row co a) → _)).
  - intros co a b _ Hb _ Hco a' b'. rewrite row_co_incr. case_decide; [|by apply Hco].
    unfold incr. rewrite DictFacts.elem_of_keys_set. intros [->|?]; eauto.
  - by intros a b ?%elem_of_nil.
Qed.

(** ** Order of the partner list and of [most_common] *)

(** C7, as stated, fails on the three example draws: the partners of 7 are
    met in the order 1, 2, 8, 9, 10, 3, 11, 12, 13, and the partners that
    tie at count 1 stay in that order, 10 before 3. *)
Lemma partners_of_counterexample :
  partners_of (co_occurrence three_draws) 7
  = [(1, 2%nat); (2, 1%nat); (8, 1%nat); (9, 1%nat); (10, 1%nat);
     (3, 1%nat); (11, 1%nat); (12, 1%nat); (13, 1%nat)]
  ∧ ¬ StronglySorted count_then_number (partners_of (co_occurrence three_draws) 7).
Proof. split; compute_done. Qed.

(** C7 (amended): the partner list consulted for [n] holds the items of the
    row [co[n]], each partner with its co-occurrence count, in descending
    order of count; partners of equal count keep the order in which they
    were inserted into the row; and the list is empty, with no error, when
    [n] is in no record. *)
Theorem partners_of_order (results : list entry) (n : Z) :
  let co := co_occurrence results in
  let ps := partners_of co n in
  ps ≡ₚ row co n
  ∧ Forall (λ p, p.2 = co_count co n p.1) ps
  ∧ StronglySorted count_ge ps
  ∧ (∀ v : nat, filter (λ p, p.2 = v) ps = filter (λ p, p.2 = v) (row co n))
  ∧ ((∀ e, e ∈ results → n ∉ numbers e) → ps = []).
Proof.
  intros co ps. unfold ps, partners_of, sorted_partners.
  destruct (Dict.mem n co) eqn:Hmem.
  - split_and!.
    + apply sorted_Permutation.
    + apply Forall_forall. intros p Hp%elem_of_sorted.
      apply item_count_of; [apply co_rows_NoDup | done].
    + apply sorted_by_count_desc.
    + apply sorted_by_count_desc_stable.
    + intros Hn. apply DictFacts.mem_true, co_keys_observed in Hmem.
      destruct Hmem as (e & He & Hin). by destruct (Hn e He).
  - assert (row co n = []) as ->.
    { unfold row, Dict.mem in *. by destruct (Dict.get n co). }
    split_and!; try done; constructor.
Qed.

(** C8, as stated, fails on [two_draws]: all twelve numbers tie at count 1
    and the six returned are the six seen first, 7 to 12, not the six
    smallest; aggregating the same two records in the other order returns
    1 to 6. *)
Lemma most_common_counterexample :
  most_common 6 (number_frequencies two_draws)
  = [(7, 1%nat); (8, 1%nat); (9, 1%nat); (10, 1%nat); (11, 1%nat); (12, 1%nat)]
  ∧ most_common 6 (number_frequencies (reverse two_draws))
    = [(1, 1%nat); (2, 1%nat); (3, 1%nat); (4, 1%nat); (5, 1%nat); (6, 1%nat)]
  ∧ ¬ StronglySorted count_then_number (most_common 20 (number_frequencies two_draws)).
Proof. split_and!; compute_done. Qed.

(** C8 (amended): [most_common k] of the frequency counter returns the
    first [k] items (all of them when there are fewer) of the list of all
    observed numbers with their counts arranged in descending order of
    count, numbers of equal count in the order in which they were first
    seen in the records.  The result therefore depends on the order of the
    records whenever counts tie. *)
Theorem most_common_order (results : list entry) (k : nat) :
  let freq := number_frequencies results in
  let top := most_common k freq in
  ∃ rest,
    (top ++ rest).*1 ≡ₚ first_seen (all_numbers results)
    ∧ Forall (λ p, p.2 = count_of freq p.1) (top ++ rest)
    ∧ length top = (k `min` length (first_seen (all_numbers results)))%nat
    ∧ StronglySorted count_ge (top ++ rest)
    ∧ ∀ v : nat,
        filter (λ n, count_of freq n = v) (top ++ rest).*1
        = filter (λ n, count_of freq n = v) (first_seen (all_numbers results)).
Proof.
  intros freq top. exists (drop k (sorted by_count_desc freq)).
  unfold top, most_common. rewrite take_drop, <- keys_number_frequencies.
  fold freq. pose proof (number_frequencies_NoDup results) as Hnd. fold freq in Hnd.
  assert (Forall (λ p, p.2 = count_of freq p.1) freq) as Hitems.
  { apply Forall_forall. intros p Hp. by apply item_count_of. }
  split_and!.
  - unfold Dict.keys. by rewrite sorted_Permutation.
  - by rewrite sorted_Permutation.
  - rewrite length_take, sorted_length. unfold Dict.keys. by rewrite length_fmap.
  - apply sorted_by_count_desc.
  - intros v. unfold Dict.keys. rewrite !filter_fmap_fst. f_equal.
    trans (filter (λ p : Z * nat, p.2 = v) (sorted by_count_desc freq)).
    + apply filter_ext_in. rewrite sorted_Permutation.
      eapply Forall_impl; [exact Hitems|]. intros p Hp. simpl in *. by rewrite Hp.
    + rewrite sorted_by_count_desc_stable. apply filter_ext_in.
      eapply Forall_impl; [exact Hitems|]. intros p Hp. simpl in *. by rewrite Hp.
Qed.

(** ** The random source and the selection of seeds *)

(** Case analysis on the first call of a sequence of calls. *)
Ltac case_result H :=
  match type of H with
  | mbind _ ?m = _ =>
      let E := fresh "E" in
      first [ destruct m as [[? ?]| |] eqn:E | destruct m as [?| |] eqn:E ];
      simpl in H; try discriminate H
  end.

Lemma item_Ok (seq : list Z) (i : nat) (x : Z) :
  item seq i = Ok x ↔ seq !! i = Some x.
Proof. unfold item. destruct (seq !! i); split; congruence. Qed.

Lemma item_lt (seq : list Z) (i : nat) :
  (i < length seq)%nat → ∃ x, item seq i = Ok x ∧ seq !! i = Some x.
Proof.
  intros [x Hx]%lookup_lt_is_Some_2. exists x. by rewrite item_Ok.
Qed.

Lemma choice_nil (r : rng) : choice [] r = Raise "IndexError".
Proof. done. Qed.

(** On a non-empty sequence [choice] returns the element at the drawn
    index and advances the generator by one draw. *)
Lemma choice_Ok (seq : list Z) (r : rng) :
  seq ≠ [] →
  ∃ x, seq !! (r 0%nat `mod` length seq)%nat = Some x
       ∧ choice seq r = Ok (x, tail_rng r).
Proof.
  intros Hseq. destruct seq as [|y seq]; [done|].
  destruct (item_lt (y :: seq) (r 0%nat `mod` length (y :: seq))%nat) as (x & Hx & Hl).
  { apply Nat.mod_upper_bound. simpl. lia. }
  exists x. split; [done|]. unfold choice, randbelow. by rewrite Hx.
Qed.

Lemma choice_elem (seq : list Z) (r r' : rng) (x : Z) :
  choice seq r = Ok (x, r') → x ∈ seq.
Proof.
  destruct seq as [|y seq]; [done|]. unfold choice, randbelow.
  destruct (item _ _) as [z| |] eqn:E; simpl; try done.
  intros ?; simplify_eq. apply item_Ok in E. by eapply list_elem_of_lookup_2.
Qed.

Lemma sample_loop_Ok (P : Z → Prop) (k m : nat) (pool seeds : list Z) (r r' : rng) :
  sample_loop k m pool r = Ok (seeds, r') →
  Forall P pool → Forall P seeds ∧ length seeds = k.
Proof.
  revert m pool seeds r. induction k as [|k IH]; intros m pool seeds r; simpl.
  - intros ? _; simplify_eq. by split.
  - intros H Hpool. unfold randbelow in H. simpl in H.
    case_result H. case_result H. case_result H. simplify_eq.
    apply item_Ok in E, E0.
    destruct (IH _ _ _ _ E1) as [Hrest Hlen].
    { apply Forall_insert; [done|]. by eapply (Forall_lookup_1 P pool). }
    split; [|simpl; congruence].
    constructor; [|done]. by eapply (Forall_lookup_1 P pool).
Qed.

Lemma sample_loop_total (k m : nat) (pool : list Z) (r : rng) :
  (k ≤ m ≤ length pool)%nat →
  ∃ seeds r', sample_loop k m pool r = Ok (seeds, r').
Proof.
  revert m pool r. induction k as [|k IH]; intros m pool r Hm; simpl; [eauto|].
  destruct (item_lt pool (r 0%nat `mod` m)%nat) as (x & -> & _).
  { pose proof (Nat.mod_upper_bound (r 0%nat) m). lia. }
  destruct (item_lt pool (m - 1)) as (y & -> & _); [lia|]. simpl.
  destruct (IH (m - 1)%nat (<[(r 0%nat `mod` m)%nat := y]> pool) (tail_rng r))
    as (rest & r2 & Hrest); [rewrite length_insert; lia|].
  rewrite Hrest. simpl. eauto.
Qed.

Lemma sample_Ok (P : Z → Prop) (population seeds : list Z) (k : nat) (r r' : rng) :
  sample population k r = Ok (seeds, r') →
  Forall P population → Forall P seeds ∧ length seeds = k.
Proof.
  unfold sample. destruct (_ <? _)%nat; [done|]. apply sample_loop_Ok.
Qed.

Lemma sample_total (population : list Z) (k : nat) (r : rng) :
  (k ≤ length population)%nat →
  ∃ seeds r', sample population k r = Ok (seeds, r').
Proof.
  intros Hk. unfold sample. destruct (Nat.ltb_spec (length population) k); [lia|].
  by apply sample_loop_total.
Qed.

(** ** Sets of numbers *)

Lemma size_add (x : Z) (X : gset Z) :
  size ({[x]} ∪ X) = if decide (x ∈ X) then size X else S (size X).
Proof.
  case_decide as Hx.
  - f_equal. by apply subseteq_union_1_L, singleton_subseteq_l.
  - rewrite size_union by set_solver. by rewrite size_singleton.
Qed.

Lemma size_add_le (x : Z) (X : gset Z) :
  (size X ≤ size ({[x]} ∪ X) ≤ S (size X))%nat.
Proof. rewrite size_add. case_decide; lia. Qed.

Lemma size_list_to_set_le (l : list Z) :
  (size (list_to_set l : gset Z) ≤ length l)%nat.
Proof.
  induction l as [|x l IH].
  - by rewrite list_to_set_nil, size_empty.
  - rewrite list_to_set_cons. pose proof (size_add_le x (list_to_set l)).
    simpl. lia.
Qed.

(** A set of elements of a list is no larger than the list. *)
Lemma size_subseteq_list (X : gset Z) (l : list Z) :
  (∀ x, x ∈ X → x ∈ l) → (size X ≤ length l)%nat.
Proof.
  intros HX. trans (size (list_to_set l : gset Z)); [|apply size_list_to_set_le].
  apply subseteq_size. intros x Hx. apply elem_of_list_to_set. auto.
Qed.

(** ** One prediction *)

Section predict_facts.
Variable top_n : nat.
Variable co : CoMatrix.
Variable top_nums : list Z.

(** A property of the pool and of all partners in [co]. *)
Variable P : Z → Prop.
Hypothesis top_nums_P : Forall P top_nums.
Hypothesis co_P : ∀ a p, p ∈ row co a → P p.1.

Implicit Types (prediction : gset Z) (r : rng).

Lemma add_partner_P prediction p :
  P p.1 → set_Forall P prediction → set_Forall P (add_partner top_n prediction p).
Proof.
  intros Hp Hpred. unfold add_partner. destruct (_ <? _)%nat; [|done].
  intros x [->%elem_of_singleton|Hx]%elem_of_union; auto.
Qed.

Lemma add_partner_size prediction p (m : nat) :
  (size prediction ≤ m)%nat → (top_n ≤ m)%nat →
  (size (add_partner top_n prediction p) ≤ m)%nat.
Proof.
  intros Hpred Hm. unfold add_partner.
  destruct (Nat.ltb_spec (size prediction) top_n); [|done].
  pose proof (size_add_le p.1 prediction). lia.
Qed.

Lemma add_partner_list_P (ps : list (Z * nat)) prediction :
  Forall (λ p, P p.1) ps → set_Forall P prediction →
  set_Forall P (fold_left (add_partner top_n) ps prediction).
Proof.
  intros Hps. revert prediction.
  induction Hps as [|p ps Hp Hps IH]; intros prediction Hpred; simpl; [done|].
  by apply IH, add_partner_P.
Qed.

Lemma add_partner_list_size (ps : list (Z * nat)) prediction (m : nat) :
  (size prediction ≤ m)%nat → (top_n ≤ m)%nat →
  (size (fold_left (add_partner top_n) ps prediction) ≤ m)%nat.
Proof.
  revert prediction. induction ps as [|p ps IH]; intros prediction Hpred Hm; simpl; [done|].
  by apply IH; [apply add_partner_size|].
Qed.

Lemma add_partners_P prediction seed :
  set_Forall P prediction → set_Forall P (add_partners top_n co prediction seed).
Proof.
  intros Hpred. unfold add_partners, sorted_partners.
  destruct (Dict.mem seed co); [|done].
  apply add_partner_list_P; [|done].
  apply Forall_forall. intros p Hp%subseteq_take%elem_of_sorted. eauto.
Qed.

Lemma add_partners_size prediction seed (m : nat) :
  (size prediction ≤ m)%nat → (top_n ≤ m)%nat →
  (size (add_partners top_n co prediction seed) ≤ m)%nat.
Proof.
  intros Hpred Hm. unfold add_partners. destruct (Dict.mem seed co); [|done].
  by apply add_partner_list_size.
Qed.

Lemma add_partners_seeds_P (seeds : list Z) prediction :
  set_Forall P prediction →
  set_Forall P (fold_left (add_partners top_n co) seeds prediction).
Proof.
  revert prediction. induction seeds as [|s seeds IH]; intros prediction Hpred; simpl; [done|].
  by apply IH, add_partners_P.
Qed.

Lemma add_partners_seeds_size (seeds : list Z) prediction (m : nat) :
  (size prediction ≤ m)%nat → (top_n ≤ m)%nat →
  (size (fold_left (add_partners top_n co) seeds prediction) ≤ m)%nat.
Proof.
  revert prediction. induction seeds as [|s seeds IH]; intros prediction Hpred Hm; simpl; [done|].
  by apply IH; [apply add_partners_size|].
Qed.

Lemma fill_step_Ok prediction prediction' r r' :
  fill_step top_nums prediction r = Ok (prediction', r') →
  ∃ x, x ∈ top_nums ∧ prediction' = {[x]} ∪ prediction.
Proof.
  unfold fill_step. intros H. case_result H. simplify_eq.
  apply choice_elem in E. eauto.
Qed.

Lemma fill_P (fuel : nat) prediction prediction' r r' :
  fill top_n top_nums fuel prediction r = Ok (prediction', r') →
  set_Forall P prediction → set_Forall P prediction'.
Proof.
  revert prediction r. induction fuel as [|fuel IH]; intros prediction r; simpl;
    destruct (_ <? _)%nat; try done; try (intros ?; by simplify_eq).
  intros H Hpred. case_result H.
  apply fill_step_Ok in E as (x & Hx & ->).
  eapply IH; [exact H|].
  intros y [->%elem_of_singleton|Hy]%elem_of_union; [|auto].
  eapply Forall_forall in top_nums_P; eauto.
Qed.

(** The loop is left with exactly [top_n] numbers when it is entered
    with at most [top_n]. *)
Lemma fill_size (fuel : nat) prediction prediction' r r' :
  fill top_n top_nums fuel prediction r = Ok (prediction', r') →
  (size prediction ≤ top_n)%nat → size prediction' = top_n.
Proof.
  revert prediction r. induction fuel as [|fuel IH]; intros prediction r; simpl;
    destruct (Nat.ltb_spec (size prediction) top_n) as [Hlt|Hge]; try done;
    try (intros ? ?; simplify_eq; lia).
  intros H Hpred. case_result H.
  apply fill_step_Ok in E as (x & Hx & ->).
  eapply IH; [exact H|]. pose proof (size_add_le x prediction). lia.
Qed.

Lemma predict_one_P (fuel : nat) r r' (p : list Z) :
  predict_one top_n co top_nums fuel r = Ok (p, r') → Forall P p.
Proof.
  unfold predict_one. intros H. case_result H. case_result H. simplify_eq.
  apply (sample_Ok P) in E as [Hseeds _]; [|done].
  apply fill_P in E0.
  - apply Forall_forall. intros x Hx%elem_of_sorted%elem_of_elements. auto.
  - apply add_partners_seeds_P.
    intros x [Hx%elem_of_empty|Hx%elem_of_list_to_set]%elem_of_union; [done|].
    eapply Forall_forall in Hseeds; eauto.
Qed.

(** A prediction is ascending and has exactly [top_n] numbers, when
    [top_n] leaves room for the two seeds. *)
Lemma predict_one_shape (fuel : nat) r r' (p : list Z) :
  (2 ≤ top_n)%nat →
  predict_one top_n co top_nums fuel r = Ok (p, r') →
  length p = top_n ∧ StronglySorted Z.lt p.
Proof.
  unfold predict_one. intros Htop H. case_result H. case_result H. simplify_eq.
  apply (sample_Ok (λ _, True)) in E as [_ Hlen]; [|by apply Forall_true].
  apply fill_size in E0.
  - split.
    + rewrite sorted_length. exact E0.
    + apply sorted_ltb_ascending, NoDup_elements.
  - apply add_partners_seeds_size; [|done].
    rewrite union_empty_l_L. pose proof (size_list_to_set_le l). lia.
Qed.

Lemma predict_loop_Ok (Q : list Z → Prop) (fuel n_predictions : nat) r r'
    (predictions : list (list Z)) :
  (∀ r0 r1 p, predict_one top_n co top_nums fuel r0 = Ok (p, r1) → Q p) →
  predict_loop top_n co top_nums fuel n_predictions r = Ok (predictions, r') →
  Forall Q predictions ∧ length predictions = n_predictions.
Proof.
  intros HQ. revert r predictions.
  induction n_predictions as [|n IH]; intros r predictions; simpl.
  - intros ?; simplify_eq. by split.
  - intros H. case_result H. case_result H. simplify_eq.
    destruct (IH _ _ E0) as [Hrest Hlen]. split; [|simpl; congruence].
    constructor; [|done]. eauto.
Qed.
End predict_facts.

(** ** The pool and the partners hold observed numbers *)

Lemma most_common_subseteq (k : nat) (c : Counter) (p : Z * nat) :
  p ∈ most_common k c → p ∈ c.
Proof. unfold most_common. by intros ?%subseteq_take%elem_of_sorted. Qed.

Lemma top_nums_keys (k : nat) (c : Counter) (x : Z) :
  x ∈ (most_common k c).*1 → x ∈ Dict.keys c.
Proof.
  intros (p & -> & Hp%most_common_subseteq)%list_elem_of_fmap.
  by apply list_elem_of_fmap_2.
Qed.

Lemma top_nums_observed (results : list entry) (k : nat) :
  Forall (observed results) (most_common k (number_frequencies results)).*1.
Proof.
  apply Forall_forall. intros x Hx%top_nums_keys.
  by apply elem_of_keys_number_frequencies.
Qed.

Lemma co_rows_observed (results : list entry) (a : Z) (p : Z * nat) :
  p ∈ row (co_occurrence results) a → observed results p.1.
Proof.
  intros Hp. apply (co_partners_observed results a).
  by apply list_elem_of_fmap_2.
Qed.

(** ** Predictions hold observed numbers *)

(** C10: every number of every combination returned by
    [predict_next_numbers] has a nonzero frequency count, that is, it
    occurs in at least one input record. *)
Theorem predictions_observed (fuel : nat) (results : list entry)
    (top_n n_predictions : nat) (r r' : rng) (predictions : list (list Z)) :
  predict_next_numbers fuel results top_n n_predictions r = Ok (predictions, r') →
  Forall (Forall (λ x, (0 < count_of (number_frequencies results) x)%nat
                       ∧ observed results x)) predictions.
Proof.
  unfold predict_next_numbers. intros H.
  eapply predict_loop_Ok in H as [H _]; [exact H|].
  intros r0 r1 p Hp.
  apply (predict_one_P _ _ _ (observed results)) in Hp.
  - eapply Forall_impl; [exact Hp|]. intros x Hx. simpl.
    by rewrite count_of_pos_observed.
  - apply top_nums_observed.
  - apply co_rows_observed.
Qed.

Lemma predictions_observed_witness :
  Forall (Forall (λ x, (0 < count_of (number_frequencies three_draws) x)%nat
                       ∧ observed three_draws x))
    [[1; 2; 3; 4; 7; 11]; [1; 2; 3; 8; 12; 13]; [1; 2; 4; 6; 8; 9]].
Proof.
  eapply (predictions_observed 100 three_draws 6 3 stride_rng).
  vm_compute. reflexivity.
Defined.

(** ** Predictions are valid combinations *)

(** C2: when every record holds six distinct numbers between 1 and 58,
    every combination returned by [predict_next_numbers] (with the target
    size 6) is a strictly ascending list of exactly six distinct numbers,
    each between 1 and 58. *)
Theorem predictions_valid (fuel : nat) (results : list entry)
    (n_predictions : nat) (r r' : rng) (predictions : list (list Z)) :
  Forall valid_entry results →
  predict_next_numbers fuel results 6 n_predictions r = Ok (predictions, r') →
  Forall (λ p, length p = 6%nat ∧ NoDup p ∧ StronglySorted Z.lt p
               ∧ Forall (λ x, 1 ≤ x ≤ 58) p) predictions.
Proof.
  intros Hvalid H. unfold predict_next_numbers in H.
  eapply predict_loop_Ok in H as [H _]; [exact H|].
  intros r0 r1 p Hp. simpl.
  assert (2 ≤ 6)%nat as Htop by lia.
  destruct (predict_one_shape _ _ _ _ _ _ p Htop Hp) as [Hlen Hsorted].
  apply (predict_one_P _ _ _ (observed results)) in Hp;
    [|apply top_nums_observed|apply co_rows_observed].
  split_and!; [done| |done|].
  - clear -Hsorted. induction Hsorted as [|x l Hl IH Hx]; constructor; [|done].
    intros Hin. eapply Forall_forall in Hx; [|exact Hin].
    by apply Z.lt_irrefl in Hx.
  - eapply Forall_impl; [exact Hp|]. intros x (e & He & Hx). simpl.
    eapply Forall_forall in Hvalid; [|exact He].
    destruct Hvalid as (_ & _ & Hrange).
    eapply Forall_forall in Hrange; [|exact Hx]. done.
Qed.

Lemma predictions_valid_witness :
  Forall (λ p, length p = 6%nat ∧ NoDup p ∧ StronglySorted Z.lt p
               ∧ Forall (λ x, 1 ≤ x ≤ 58) p)
    [[1; 2; 3; 4; 7; 11]; [1; 2; 3; 8; 12; 13]; [1; 2; 4; 6; 8; 9]].
Proof.
  eapply (predictions_valid 100 three_draws 3 stride_rng).
  - exact three_draws_valid.
  - vm_compute. reflexivity.
Defined.

(** ** Too few distinct numbers *)

Lemma fill_unfold (top_n : nat) (top_nums : list Z) (fuel : nat)
    (prediction : gset Z) (r : rng) :
  fill top_n top_nums fuel prediction r =
  if (size prediction <? top_n)%nat then
    match fuel with
    | O => OutOfFuel
    | S fuel' =>
        '(prediction', r') ← fill_step top_nums prediction r;
        fill top_n top_nums fuel' prediction' r'
    end
  else Ok (prediction, r).
Proof. by destruct fuel. Qed.

Lemma fill_step_choice (top_nums : list Z) (prediction : gset Z) (r : rng) :
  top_nums ≠ [] →
  ∃ x, top_nums !! (r 0%nat `mod` length top_nums)%nat = Some x
       ∧ fill_step top_nums prediction r = Ok ({[x]} ∪ prediction, tail_rng r).
Proof.
  intros (x & Hx & Hc)%(choice_Ok top_nums r). exists x. split; [done|].
  unfold fill_step. by rewrite Hc.
Qed.

(** When the numbers the loop can reach are fewer than [top_n], the loop
    is never left. *)
Lemma fill_stuck (top_n : nat) (top_nums universe : list Z) (fuel : nat)
    (prediction : gset Z) (r : rng) :
  top_nums ≠ [] →
  (length universe < top_n)%nat →
  Forall (λ x, x ∈ universe) top_nums →
  set_Forall (λ x, x ∈ universe) prediction →
  fill top_n top_nums fuel prediction r = OutOfFuel.
Proof.
  intros Hne Hlen Htop. revert prediction r.
  induction fuel as [|fuel IH]; intros prediction r Hpred; rewrite fill_unfold;
    pose proof (size_subseteq_list prediction universe Hpred);
    (destruct (Nat.ltb_spec (size prediction) top_n); [|lia]); [done|].
  destruct (fill_step_choice top_nums prediction r Hne) as (x & Hx & ->). simpl.
  apply IH. intros y [->%elem_of_singleton|Hy]%elem_of_union; [|auto].
  eapply Forall_forall in Htop; [exact Htop|]. by eapply list_elem_of_lookup_2.
Qed.

(** With no number recorded at all, C1 as stated fails: the pool is empty
    and the first pass of the fill loop raises [IndexError] from
    [random.choice]; nothing raises [InsufficientData]. *)
Lemma predict_insufficient_counterexample :
  (length (number_frequencies []) < 6)%nat
  ∧ predict_next_numbers 10 [] 6 3 stride_rng = Raise "IndexError"
  ∧ predict_next_numbers 10 [] 6 3 stride_rng ≠ Raise "InsufficientData".
Proof. split_and!; [simpl; lia | done | done]. Qed.

(** C1 (amended): when the frequency counter has fewer than [top_n]
    distinct numbers and at least one prediction is asked for,
    [predict_next_numbers] returns no predictions and raises no
    [InsufficientData]: with an empty counter the first pass of the fill
    loop raises [IndexError], and otherwise the fill loop is never left,
    whatever the random draws are. *)
Theorem predict_insufficient (fuel : nat) (results : list entry)
    (top_n n_predictions : nat) (r : rng) :
  (length (number_frequencies results) < top_n)%nat →
  (0 < n_predictions)%nat →
  (number_frequencies results = [] →
     predict_next_numbers (S fuel) results top_n n_predictions r = Raise "IndexError")
  ∧ (number_frequencies results ≠ [] →
     predict_next_numbers fuel results top_n n_predictions r = OutOfFuel).
Proof.
  intros Hlen Hn. destruct n_predictions as [|n]; [lia|].
  unfold predict_next_numbers. split.
  - intros Hnil. rewrite Hnil in *. simpl in Hlen.
    cbn [predict_loop]. unfold predict_one. cbn -[fill size].
    rewrite fill_unfold, union_empty_l_L, size_empty.
    by destruct (Nat.ltb_spec 0 top_n); [|lia].
  - intros Hne. set (freq := number_frequencies results) in *.
    set (top_nums := (most_common 20 freq).*1).
    cbn [predict_loop]. unfold predict_one.
    destruct (sample_total top_nums (2 `min` length top_nums) r) as (seeds & r1 & Hs);
      [lia|].
    rewrite Hs. simpl.
    apply (sample_Ok (λ x, x ∈ Dict.keys freq)) in Hs as [Hseeds _].
    2:{ apply Forall_forall. intros x. apply top_nums_keys. }
    rewrite (fill_stuck top_n top_nums (Dict.keys freq)); [done| | | |].
    + unfold top_nums, most_common. intros Hnil%(f_equal length).
      rewrite length_fmap, length_take, sorted_length in Hnil.
      destruct freq; simpl in *; [done | lia].
    + unfold Dict.keys. by rewrite length_fmap.
    + apply Forall_forall. intros x. apply top_nums_keys.
    + apply add_partners_seeds_P.
      * intros a p Hp. subst freq.
        apply elem_of_keys_number_frequencies, (co_rows_observed results a p Hp).
      * intros x [Hx%elem_of_empty|Hx%elem_of_list_to_set]%elem_of_union; [done|].
        eapply Forall_forall in Hseeds; eauto.
Qed.

Lemma predict_insufficient_witness :
  predict_next_numbers 1 [] 6 3 stride_rng = Raise "IndexError"
  ∧ predict_next_numbers 50 short_draw 6 3 stride_rng = OutOfFuel.
Proof.
  split.
  - apply (predict_insufficient 0 [] 6 3 stride_rng); [simpl; lia | lia | done].
  - apply (predict_insufficient 50 short_draw 6 3 stride_rng); [simpl; lia | lia | done].
Defined.

(** ** Termination of the fill loop *)

Lemma fair_tail (n : nat) (r : rng) : fair n r → fair n (tail_rng r).
Proof.
  intros Hr start i Hi. destruct (Hr (S start) i Hi) as (t & Ht & Hdraw).
  destruct t as [|t]; [lia|]. exists t. split; [lia | done].
Qed.

Lemma fill_zero_rng (fuel : nat) :
  fill 6 [1; 2; 3; 4; 5; 6] fuel seeded zero_rng = OutOfFuel.
Proof.
  induction fuel as [|fuel IH]; [done|].
  rewrite fill_unfold.
  replace (size seeded <? 6)%nat with true by compute_done.
  unfold fill_step. simpl.
  replace ({[1]} ∪ seeded) with seeded by (unfold seeded; set_solver).
  exact IH.
Qed.

(** C3, as stated, fails: the pool of [one_draw] has six distinct numbers,
    yet with a generator that keeps drawing index 0 the loop, entered with
    the four numbers that the seeding and partner steps produce under that
    generator, redraws 1 for ever; the whole call never returns. *)
Lemma fill_termination_counterexample :
  (most_common 20 (number_frequencies one_draw)).*1 = [1; 2; 3; 4; 5; 6]
  ∧ (6 ≤ size (list_to_set [1; 2; 3; 4; 5; 6]%Z : gset Z))%nat
  ∧ (∀ fuel, fill 6 [1; 2; 3; 4; 5; 6] fuel seeded zero_rng = OutOfFuel)
  ∧ (∀ fuel, predict_next_numbers fuel one_draw 6 1 zero_rng = OutOfFuel).
Proof.
  split_and!; [done | compute_done | apply fill_zero_rng |].
  intros fuel. unfold predict_next_numbers.
  change ((most_common 20 (number_frequencies one_draw)).*1) with [1; 2; 3; 4; 5; 6].
  cbn [predict_loop]. unfold predict_one.
  change (sample [1; 2; 3; 4; 5; 6] (2 `min` length [1; 2; 3; 4; 5; 6]) zero_rng)
    with (Ok ([1; 6], zero_rng)).
  cbn [mbind result_bind].
  replace (fold_left (add_partners 6 (co_occurrence one_draw)) [1; 6] (∅ ∪ list_to_set [1; 6]))
    with seeded by compute_done.
  by rewrite fill_zero_rng.
Qed.

Section fill_termination.
Variable top_n : nat.
Variable top_nums : list Z.
Hypothesis enough : (top_n ≤ size (list_to_set top_nums : gset Z))%nat.

Implicit Types (prediction : gset Z) (r : rng).

(** While the combination is short, the pool has a number outside it. *)
Lemma pool_has_fresh prediction :
  (size prediction < top_n)%nat →
  ∃ i x, top_nums !! i = Some x ∧ x ∉ prediction.
Proof.
  intros Hsize. destruct (decide (Forall (λ x, x ∈ prediction) top_nums)) as [Hall|Hex].
  - assert (size (list_to_set top_nums : gset Z) ≤ size prediction)%nat; [|lia].
    apply subseteq_size. intros x Hx%elem_of_list_to_set.
    eapply Forall_forall in Hall; eauto.
  - apply not_Forall_Exists, Exists_exists in Hex as (x & Hin & Hx); [|apply _].
    apply list_elem_of_lookup_1 in Hin as [i Hi]. eauto.
Qed.

Lemma pool_nonempty prediction : (size prediction < top_n)%nat → top_nums ≠ [].
Proof. intros (i & x & Hi & _)%pool_has_fresh ->. done. Qed.

(** One pass either adds a new number or redraws a present one. *)
Lemma fill_step_grows_or_retries prediction r :
  (size prediction < top_n)%nat →
  ∃ x, top_nums !! (r 0%nat `mod` length top_nums)%nat = Some x
       ∧ fill_step top_nums prediction r = Ok ({[x]} ∪ prediction, tail_rng r)
       ∧ (x ∈ prediction → {[x]} ∪ prediction = prediction)
       ∧ (x ∉ prediction → size ({[x]} ∪ prediction) = S (size prediction)).
Proof.
  intros Hsize%pool_nonempty.
  destruct (fill_step_choice top_nums prediction r Hsize) as (x & Hx & Hstep).
  exists x. split_and!; [done..| |].
  - intros Hold. by apply subseteq_union_1_L, singleton_subseteq_l.
  - intros Hnew. rewrite size_add. by rewrite decide_False.
Qed.

Lemma fill_returns_step prediction r x :
  (size prediction < top_n)%nat →
  top_nums !! (r 0%nat `mod` length top_nums)%nat = Some x →
  fill_returns top_n top_nums ({[x]} ∪ prediction) (tail_rng r) →
  fill_returns top_n top_nums prediction r.
Proof.
  intros Hsize Hx (fuel & prediction' & r' & Hfill & Hsub & Hsz).
  exists (S fuel), prediction', r'. rewrite fill_unfold.
  destruct (Nat.ltb_spec (size prediction) top_n); [|lia].
  destruct (fill_step_grows_or_retries prediction r Hsize) as (y & Hy & -> & _).
  simplify_eq. split_and!; [done | set_solver |].
  pose proof (size_add_le x prediction). lia.
Qed.

(** Under a fair generator the loop returns: by induction on the numbers
    still missing, and, for each of them, on the draws until a number
    outside the combination comes up. *)
Lemma fill_returns_fair (missing : nat) prediction r :
  (top_n - size prediction ≤ missing)%nat →
  fair (length top_nums) r → fill_returns top_n top_nums prediction r.
Proof.
  revert prediction r. induction missing as [|missing IH]; intros prediction r Hm Hr.
  - exists 0%nat, prediction, r. rewrite fill_unfold.
    destruct (Nat.ltb_spec (size prediction) top_n); [lia|].
    split_and!; [done | done | lia].
  - destruct (decide (size prediction < top_n)%nat) as [Hsize|Hsize]; [|apply IH; [lia|done]].
    destruct (pool_has_fresh prediction Hsize) as (i & x & Hi & Hx).
    destruct (Hr 0%nat i) as (t & _ & Ht); [by eapply lookup_lt_Some|].
    revert prediction r Hm Hr Hsize Hx Ht.
    induction t as [|t IHt]; intros prediction r Hm Hr Hsize Hx Ht.
    + apply (fill_returns_step prediction r x Hsize); [by rewrite Ht|].
      apply IH; [|by apply fair_tail].
      rewrite size_add, decide_False by done. lia.
    + destruct (fill_step_grows_or_retries prediction r Hsize)
        as (y & Hy & _ & Hold & Hnew).
      apply (fill_returns_step prediction r y Hsize Hy).
      destruct (decide (y ∈ prediction)) as [Hin|Hout].
      * rewrite (Hold Hin). apply IHt; try done. by apply fair_tail.
      * apply IH; [|by apply fair_tail]. rewrite (Hnew Hout). lia.
Qed.
End fill_termination.

(** C3 (amended): when the pool holds at least [top_n] distinct numbers,
    every pass of the fill loop either adds a new number to the
    combination or redraws a present one and leaves it unchanged; and
    under every fair generator the loop returns, with a combination of
    [top_n] numbers that extends the one it was entered with.  (It does
    not return for every generator.) *)
Theorem fill_terminates (top_n : nat) (top_nums : list Z) :
  (top_n ≤ size (list_to_set top_nums : gset Z))%nat →
  (∀ (prediction : gset Z) (r : rng),
     (size prediction < top_n)%nat →
     ∃ x, x ∈ top_nums
          ∧ fill_step top_nums prediction r = Ok ({[x]} ∪ prediction, tail_rng r)
          ∧ (x ∈ prediction → {[x]} ∪ prediction = prediction)
          ∧ (x ∉ prediction → size ({[x]} ∪ prediction) = S (size prediction)))
  ∧ (∀ (prediction : gset Z) (r : rng),
       fair (length top_nums) r →
       ∃ fuel prediction' r',
         fill top_n top_nums fuel prediction r = Ok (prediction', r')
         ∧ prediction ⊆ prediction'
         ∧ size prediction' = (top_n `max` size prediction)%nat).
Proof.
  intros Henough. split.
  - intros prediction r Hsize.
    destruct (fill_step_grows_or_retries top_n top_nums Henough prediction r Hsize)
      as (x & Hx & Hstep & Hold & Hnew).
    exists x. split_and!; try done. by eapply list_elem_of_lookup_2.
  - intros prediction r Hr.
    by apply (fill_returns_fair top_n top_nums Henough (top_n - size prediction)).
Qed.

(** Counting through the indices is fair for every pool. *)
Lemma counting_rng_fair (n : nat) : fair n counting_rng.
Proof.
  intros start i Hi. exists (start * n + i)%nat. split; [nia|].
  unfold counting_rng. rewrite Nat.add_comm, Nat.Div0.mod_add.
  by apply Nat.mod_small.
Qed.

Lemma fill_terminates_witness :
  ∃ fuel prediction' r',
    fill 6 [1; 2; 3; 4; 5; 6] fuel seeded counting_rng = Ok (prediction', r')
    ∧ seeded ⊆ prediction'
    ∧ size prediction' = (6 `max` size seeded)%nat.
Proof.
  assert (6 ≤ size (list_to_set [1; 2; 3; 4; 5; 6]%Z : gset Z))%nat as Henough
    by (vm_compute; lia).
  exact (proj2 (fill_terminates 6 [1; 2; 3; 4; 5; 6] Henough)
           seeded counting_rng (counting_rng_fair 6)).
Defined.

(** ** Records built by the row loop *)

Lemma digit_value_nonneg (c : ascii) : is_digit c = true → 0 ≤ digit_value c.
Proof.
  unfold is_digit, digit_value. intros [H1 _]%andb_prop.
  apply Nat.leb_le in H1. lia.
Qed.

Lemma decimal_fold_nonneg (l : list ascii) (acc : Z) :
  forallb is_digit l = true → 0 ≤ acc →
  0 ≤ fold_left (fun acc c => 10 * acc + digit_value c) l acc.
Proof.
  revert acc. induction l as [|c l IH]; intros acc Hall Hacc; simpl in *; [done|].
  apply andb_prop in Hall as [Hc Hl]. apply IH; [done|].
  pose proof (digit_value_nonneg c Hc). lia.
Qed.

Lemma decimal_value_nonneg (n : string) : isdigit n = true → 0 ≤ decimal_value n.
Proof.
  intros Hn. apply decimal_fold_nonneg; [|done].
  destruct n; [done | exact Hn].
Qed.

Section fetch_facts.
Variable strptime : string → option datetime.
Variable max_str_digits : nat.

Lemma int_cases (n : string) :
  int max_str_digits n = Ok (decimal_value n)
  ∨ int max_str_digits n = Raise "ValueError".
Proof. unfold int. destruct (_ && _); auto. Qed.

Lemma int_within_limit (n : string) :
  within_limit max_str_digits [n] → int max_str_digits n = Ok (decimal_value n).
Proof.
  unfold int. intros [->|Hn%Forall_inv]; [done|].
  destruct (Nat.ltb_spec max_str_digits (String.length n)); [lia|].
  by rewrite andb_false_r.
Qed.

Lemma for_each_int_cases (tokens : list string) :
  for_each (int max_str_digits) tokens = Ok (decimal_value <$> tokens)
  ∨ for_each (int max_str_digits) tokens = Raise "ValueError".
Proof.
  induction tokens as [|n tokens IH]; simpl; [by left|].
  destruct (int_cases n) as [-> | ->]; simpl; [|by right].
  destruct IH as [-> | ->]; simpl; auto.
Qed.

Lemma for_each_int_within_limit (tokens : list string) :
  within_limit max_str_digits tokens →
  for_each (int max_str_digits) tokens = Ok (decimal_value <$> tokens).
Proof.
  intros Hlim. induction tokens as [|n tokens IH]; simpl; [done|].
  rewrite int_within_limit, IH; [done| |].
  - destruct Hlim as [?|[_ ?]%Forall_cons]; [by left | by right].
  - destruct Hlim as [?|[? _]%Forall_cons]; [by left | right; by constructor].
Qed.

Lemma parse_numbers_cases (nums_str : string) :
  parse_numbers max_str_digits nums_str
  = Ok (decimal_value <$> filter (λ n, isdigit n = true) (split "-" nums_str))
  ∨ parse_numbers max_str_digits nums_str = Raise "ValueError".
Proof. apply for_each_int_cases. Qed.
End fetch_facts.

(** C9, as stated, fails: the row loop builds a record from a cell with
    three numbers, one of them twice and one above 58, and that record is
    returned to the aggregates. *)
Lemma record_construction_counterexample :
  parse_row any_date 4300 ["Sep 2, 2025"; "1-1-99"]%string = Ok (Some (draw [1; 1; 99]))
  ∧ fetch_rows any_date 4300 [["Sep 2, 2025"; "1-1-99"]%string] = [draw [1; 1; 99]]
  ∧ ¬ valid_numbers [1; 1; 99].
Proof.
  split_and!; [done | done |]. intros (Hlen & _). simpl in Hlen. lia.
Qed.

(** C9 (amended): building a record in the row loop never fails with
    [InvalidRecord] and checks neither the count of the numbers, nor
    duplicates, nor the range: for a row of at least two cells whose date
    parses, whose numbers cell is ASCII text and whose tokens are within
    the digit limit, the record is built, and its numbers are the values of
    the tokens of the second cell, split at ["-"], that are made of the
    digits 0 to 9, in order; all that is guaranteed of them is that they are
    not negative.  (Nothing is said of a cell with characters outside
    ASCII, where [int] can fail on a token that [isdigit] accepts.) *)
Theorem record_construction_unvalidated (strptime : string → option datetime)
    (max_str_digits : nat) (cols : list string) :
  parse_row strptime max_str_digits cols ≠ Raise "InvalidRecord"
  ∧ ∀ date_str nums_str rest d,
      cols = date_str :: nums_str :: rest →
      strptime date_str = Some d →
      ascii_text nums_str →
      within_limit max_str_digits (split "-" nums_str) →
      ∃ nums,
        parse_row strptime max_str_digits cols
        = Ok (Some {| date := d; numbers := nums |})
        ∧ nums = decimal_value <$> filter (λ n, isdigit n = true) (split "-" nums_str)
        ∧ Forall (λ n, 0 ≤ n) nums.
Proof.
  split.
  - destruct cols as [|date_str [|nums_str rest]]; try done. simpl.
    destruct (strptime date_str); simpl; [|done].
    by destruct (parse_numbers_cases max_str_digits nums_str) as [-> | ->].
  - intros date_str nums_str rest d -> Hd _ Hlim. eexists. split_and!; [|done|].
    + simpl. rewrite Hd. simpl. unfold parse_numbers.
      rewrite for_each_int_within_limit; [done|].
      destruct Hlim as [?|Hlim]; [by left | right].
      apply Forall_forall. intros n [_ Hn]%list_elem_of_filter.
      eapply Forall_forall in Hlim; eauto.
    + apply Forall_fmap, Forall_forall. intros n [Hn _]%list_elem_of_filter.
      by apply decimal_value_nonneg.
Qed.

Lemma record_construction_unvalidated_witness :
  ∃ nums,
    parse_row any_date 4300 ["Sep 2, 2025"; "1-1-99"; "0"; "0"]%string
    = Ok (Some {| date := {| year := 2025; month := 9; day := 2 |}; numbers := nums |})
    ∧ nums = decimal_value <$> filter (λ n, isdigit n = true) (split "-" "1-1-99")
    ∧ Forall (λ n, 0 ≤ n) nums.
Proof.
  apply (proj2 (record_construction_unvalidated any_date 4300
                  ["Sep 2, 2025"; "1-1-99"; "0"; "0"]%string)
           "Sep 2, 2025"%string "1-1-99"%string ["0"; "0"]%string
           {| year := 2025; month := 9; day := 2 |}).
  - reflexivity.
  - reflexivity.
  - reflexivity.
  - right. compute_done.
Defined.

(** * Further properties of the aggregates *)

(** ** What the frequency counter holds *)

(** The count of a number is the number of its occurrences in the records,
    every occurrence counted, also the repeated ones of a single record. *)
Theorem frequency_counts_occurrences (results : list entry) (n : Z) :
  count_of (number_frequencies results) n = occurrences n (all_numbers results).
Proof.
  rewrite number_frequencies_update, count_of_update. done.
Qed.

Lemma stored_counts_positive_from (c : Counter) (l : list Z) :
  Forall (λ p, (1 ≤ p.2)%nat) c → Forall (λ p, (1 ≤ p.2)%nat) (update c l).
Proof.
  unfold update. revert c. induction l as [|x l IH]; intros c Hc; simpl; [done|].
  apply IH. unfold incr. clear IH.
  induction Hc as [|[k v] c Hk Hc IHc]; simpl.
  - constructor; [simpl; lia | constructor].
  - destruct (Z.eqb_spec x k) as [->|Hne].
    + constructor; [simpl; lia | done].
    + constructor; [done|].
      unfold count_of. simpl. destruct (Z.eqb_spec x k); [done|]. exact IHc.
Qed.

(** The keys of the counter are exactly the numbers that occur in a record,
    each once; every stored count is at least 1; a number that occurs
    nowhere is not stored and reads as 0. *)
Theorem frequency_keys (results : list entry) :
  let freq := number_frequencies results in
  NoDup (Dict.keys freq)
  ∧ (∀ n, n ∈ Dict.keys freq ↔ observed results n)
  ∧ Forall (λ p, (1 ≤ p.2)%nat) freq
  ∧ (∀ n, ¬ observed results n → Dict.get n freq = None ∧ count_of freq n = 0%nat).
Proof.
  intros freq. split_and!.
  - apply number_frequencies_NoDup.
  - intros n. apply elem_of_keys_number_frequencies.
  - unfold freq. rewrite number_frequencies_update.
    by apply stored_counts_positive_from.
  - intros n Hn.
    assert (Dict.get n freq = None) as Hget.
    { apply DictFacts.get_None. unfold freq.
      by rewrite elem_of_keys_number_frequencies. }
    split; [done|]. unfold count_of. by rewrite Hget.
Qed.

Lemma sum_values_set (c : Counter) (n : Z) (v : nat) :
  (sum_list (Dict.set n v c).*2 + count_of c n = sum_list c.*2 + v)%nat.
Proof.
  unfold count_of. induction c as [|[k v'] c IH]; cbn [Dict.set Dict.get].
  - simpl. lia.
  - destruct (Z.eqb_spec n k) as [->|Hne]; rewrite !fmap_cons; simpl; lia.
Qed.

Lemma sum_values_incr (c : Counter) (n : Z) :
  sum_list (incr c n).*2 = S (sum_list c.*2).
Proof.
  unfold incr. pose proof (sum_values_set c n (S (count_of c n))). lia.
Qed.

(** The stored counts add up to the number of numbers read, whatever the
    records hold. *)
Theorem frequency_total (results : list entry) :
  sum_list (number_frequencies results).*2 = length (all_numbers results).
Proof.
  rewrite number_frequencies_update. unfold update.
  assert (∀ l c, sum_list (fold_left incr l c).*2 = (sum_list c.*2 + length l)%nat) as H.
  { induction l as [|x l IH]; intros c; simpl; [lia|].
    rewrite IH, sum_values_incr. lia. }
  by rewrite H.
Qed.

(** ** Aggregating in parts, in another order, or over a selection *)

(** Counts of a concatenation of record lists are the sums of the counts of
    the parts, for the frequencies and for the co-occurrences. *)
Theorem aggregates_of_app (results1 results2 : list entry) (a b : Z) :
  count_of (number_frequencies (results1 ++ results2)) a
  = (count_of (number_frequencies results1) a
     + count_of (number_frequencies results2) a)%nat
  ∧ co_count (co_occurrence (results1 ++ results2)) a b
    = (co_count (co_occurrence results1) a b
       + co_count (co_occurrence results2) a b)%nat.
Proof.
  rewrite !count_of_number_frequencies, !co_count_co_occurrence.
  by rewrite !sum_list_with_app.
Qed.

(** The counts do not depend on the order of the records (the order of the
    keys does). *)
Theorem aggregates_of_permutation (results1 results2 : list entry) (a b : Z) :
  results1 ≡ₚ results2 →
  count_of (number_frequencies results1) a = count_of (number_frequencies results2) a
  ∧ co_count (co_occurrence results1) a b = co_count (co_occurrence results2) a b.
Proof.
  intros Hperm. rewrite !count_of_number_frequencies, !co_count_co_occurrence.
  by rewrite Hperm.
Qed.

Lemma aggregates_of_permutation_witness :
  count_of (number_frequencies two_draws) 7
  = count_of (number_frequencies (reverse two_draws)) 7
  ∧ co_count (co_occurrence two_draws) 7 8
    = co_count (co_occurrence (reverse two_draws)) 7 8.
Proof.
  apply (aggregates_of_permutation two_draws (reverse two_draws) 7 8).
  symmetry. apply reverse_Permutation.
Defined.

(** Counts over a selection of the records (as a date range makes) are at
    most the counts over all of them. *)
Theorem aggregates_of_sublist (selected results : list entry) (a b : Z) :
  selected `sublist_of` results →
  (count_of (number_frequencies selected) a ≤ count_of (number_frequencies results) a)%nat
  ∧ (co_count (co_occurrence selected) a b ≤ co_count (co_occurrence results) a b)%nat.
Proof.
  intros Hsub. rewrite !count_of_number_frequencies, !co_count_co_occurrence.
  induction Hsub as [|e l1 l2 Hsub IH|e l1 l2 Hsub IH]; simpl; lia.
Qed.

Lemma aggregates_of_sublist_witness :
  (count_of (number_frequencies (take 2 three_draws)) 1
   ≤ count_of (number_frequencies three_draws) 1)%nat
  ∧ (co_count (co_occurrence (take 2 three_draws)) 1 2
     ≤ co_count (co_occurrence three_draws) 1 2)%nat.
Proof.
  apply (aggregates_of_sublist (take 2 three_draws) three_draws 1 2).
  apply sublist_take.
Defined.

(** ** What the co-occurrence dictionary holds *)

Lemma sum_list_with_ext {A} (f g : A → nat) (l : list A) :
  (∀ x, x ∈ l → f x = g x) → sum_list_with f l = sum_list_with g l.
Proof.
  induction l as [|x l IH]; intros Hfg; simpl; [done|].
  rewrite (Hfg x), IH; [done| |left]. intros y Hy. apply Hfg. by right.
Qed.

Lemma sum_list_with_add {A} (f g : A → nat) (l : list A) :
  sum_list_with (λ x, f x + g x)%nat l = (sum_list_with f l + sum_list_with g l)%nat.
Proof. induction l as [|x l IH]; simpl; [done|]. rewrite IH. lia. Qed.

Lemma sum_list_with_pos {A} (f : A → nat) (l : list A) :
  (0 < sum_list_with f l)%nat ↔ ∃ x, x ∈ l ∧ (0 < f x)%nat.
Proof.
  induction l as [|x l IH]; simpl.
  - split; [lia | by intros (? & ?%elem_of_nil & _)].
  - split.
    + intros H. destruct (decide (0 < f x)%nat) as [Hx|Hx].
      * exists x. split; [left | done].
      * destruct IH as [(y & Hy & Hfy) _]; [lia|]. exists y. split; [by right | done].
    + intros (y & [->|Hy]%elem_of_cons & Hfy); [lia|].
      destruct IH as [_ IH]. specialize (IH (ex_intro _ y (conj Hy Hfy))). lia.
Qed.

(** [co[a][b]], for distinct [a] and [b], counts over the records the pairs
    of an occurrence of [a] and an occurrence of [b]; the diagonal
    [co[a][a]] is never counted. *)
Theorem co_occurrence_counts_pairs (results : list entry) (a b : Z) :
  co_count (co_occurrence results) a b
  = if decide (a = b) then 0%nat
    else sum_list_with
           (λ e, occurrences a (numbers e) * occurrences b (numbers e))%nat results.
Proof.
  rewrite co_count_co_occurrence. unfold pair_occurrences.
  case_decide; [|done]. induction results as [|e results IH]; simpl; [done|].
  by rewrite IH.
Qed.

Lemma pair_occurrences_pos (a b : Z) (nums : list Z) :
  (0 < pair_occurrences a b nums)%nat ↔ a ≠ b ∧ a ∈ nums ∧ b ∈ nums.
Proof.
  unfold pair_occurrences. rewrite <- !occurrences_pos.
  case_decide; [split; [lia | tauto]|]. split; [intros; split_and!; [done|nia..] | nia].
Qed.

Lemma co_count_pos (results : list entry) (a b : Z) :
  (0 < co_count (co_occurrence results) a b)%nat
  ↔ a ≠ b ∧ ∃ e, e ∈ results ∧ a ∈ numbers e ∧ b ∈ numbers e.
Proof.
  rewrite co_count_co_occurrence, sum_list_with_pos. split.
  - intros (e & He & (? & ? & ?)%pair_occurrences_pos). eauto.
  - intros (? & e & He & ? & ?). exists e. by rewrite pair_occurrences_pos.
Qed.

Lemma co_keys_count (results : list entry) :
  let co := co_occurrence results in
  (∀ a, a ∈ Dict.keys co ↔ ∃ b, (0 < co_count co a b)%nat)
  ∧ (∀ a b, b ∈ Dict.keys (row co a) ↔ (0 < co_count co a b)%nat).
Proof.
  apply (co_occurrence_invariant results (λ co,
    (∀ a, a ∈ Dict.keys co ↔ ∃ b, (0 < co_count co a b)%nat)
    ∧ (∀ a b, b ∈ Dict.keys (row co a) ↔ (0 < co_count co a b)%nat))).
  - intros co a b _ _ _ [Hkeys Hrows]. split.
    + intros x. unfold co_incr at 1. rewrite DictFacts.elem_of_keys_set, Hkeys. split.
      * intros [->|(y & Hy)].
        -- exists b. rewrite co_count_incr. rewrite decide_True by done. lia.
        -- exists y. rewrite co_count_incr. lia.
      * intros (y & Hy). rewrite co_count_incr in Hy.
        destruct (decide (x = a)) as [->|Hne]; [by left|]. right. exists y.
        rewrite decide_False in Hy by (intros [? ?]; congruence). lia.
    + intros x y. rewrite row_co_incr, co_count_incr.
      destruct (decide (a = x)) as [->|Hne].
      * unfold incr. rewrite DictFacts.elem_of_keys_set, Hrows.
        destruct (decide (x = x ∧ b = y)) as [[_ ->]|Hn]; [split; [lia | by left]|].
        split; [intros [->|?]; [tauto | lia] | intros; right; lia].
      * rewrite Hrows. rewrite decide_False by tauto. split; lia.
  - split.
    + intros a. split; [by intros ?%elem_of_nil | intros (b & Hb); cbv in Hb; lia].
    + intros a b. split; [by intros ?%elem_of_nil | intros Hb; cbv in Hb; lia].
Qed.

(** [a in co] holds exactly when some record holds [a] together with a
    different number (a number that only ever occurs alone has no row); the
    row of [a] stores exactly the partners with a positive count, and never
    [a] itself. *)
Theorem co_occurrence_keys (results : list entry) (a : Z) :
  let co := co_occurrence results in
  (Dict.mem a co = true
   ↔ ∃ e, e ∈ results ∧ a ∈ numbers e ∧ ∃ b, b ∈ numbers e ∧ b ≠ a)
  ∧ (∀ b, b ∈ Dict.keys (row co a) ↔ (0 < co_count co a b)%nat)
  ∧ a ∉ Dict.keys (row co a).
Proof.
  intros co. destruct (co_keys_count results) as [Hkeys Hrows]. fold co in Hkeys, Hrows.
  split_and!.
  - rewrite DictFacts.mem_true, Hkeys. split.
    + intros (b & (Hne & e & He & Ha & Hb)%co_count_pos). exists e. eauto.
    + intros (e & He & Ha & b & Hb & Hne). exists b. apply co_count_pos. eauto.
  - intros b. apply Hrows.
  - rewrite Hrows. intros (Hne & _)%co_count_pos. done.
Qed.

Lemma sum_occurrences (L nums : list Z) :
  NoDup L → Forall (λ x, x ∈ L) nums →
  sum_list_with (λ b, occurrences b nums) L = length nums.
Proof.
  intros HL Hnums.
  rewrite <- (sum_list_with_ext (count_of (update [] nums))).
  - rewrite sum_count_update by done.
    assert (sum_list_with (count_of []) L = 0%nat) as ->; [|done].
    clear. induction L; simpl; auto.
  - intros b _. by rewrite count_of_update.
Qed.

Lemma sum_except (L : list Z) (a : Z) (f : Z → nat) :
  NoDup L → a ∈ L →
  (sum_list_with (λ b, if decide (a = b) then 0 else f b) L + f a
   = sum_list_with f L)%nat.
Proof.
  induction 1 as [|x L Hx HL IH]; [by intros ?%elem_of_nil|].
  intros [->|Ha]%elem_of_cons; simpl.
  - rewrite decide_True by done.
    rewrite (sum_list_with_ext _ f); [lia|].
    intros b Hb. rewrite decide_False; [done|]. by intros ->.
  - rewrite decide_False by (by intros ->). specialize (IH Ha). lia.
Qed.

Lemma sum_pair_occurrences (L nums : list Z) (a : Z) :
  NoDup L → Forall (λ x, x ∈ L) nums → NoDup nums →
  sum_list_with (λ b, pair_occurrences a b nums) L
  = (occurrences a nums * (length nums - 1))%nat.
Proof.
  intros HL Hnums Hnd. pose proof (occurrences_NoDup a nums Hnd) as Hle.
  destruct (decide (a ∈ nums)) as [Ha|Ha].
  - assert (occurrences a nums = 1%nat) as Hone.
    { apply occurrences_pos in Ha. lia. }
    pose proof (sum_occurrences L nums HL Hnums) as Hsum.
    rewrite <- (sum_except L a) in Hsum; [|done|].
    2:{ eapply Forall_forall in Hnums; eauto. }
    rewrite (sum_list_with_ext _ (λ b, if decide (a = b) then 0%nat else occurrences b nums)).
    + lia.
    + intros b _. unfold pair_occurrences. case_decide; [done|]. rewrite Hone. lia.
  - assert (occurrences a nums = 0%nat) as Hzero.
    { destruct (occurrences a nums) eqn:E; [done|].
      destruct Ha. apply occurrences_pos. lia. }
    rewrite (sum_list_with_ext _ (λ _, 0%nat)).
    + rewrite Hzero. clear. induction L; simpl; [done|]. done.
    + intros b _. unfold pair_occurrences. case_decide; [done|]. by rewrite Hzero.
Qed.

(** For records of six distinct numbers between 1 and 58, the row of [a]
    adds up to five times the frequency of [a]: each draw of [a] brings its
    five companions. *)
Theorem co_occurrence_row_sum (results : list entry) (a : Z) :
  Forall valid_entry results →
  sum_list_with (co_count (co_occurrence results) a) (seqZ 1 58)
  = (5 * count_of (number_frequencies results) a)%nat.
Proof.
  intros Hvalid.
  rewrite (sum_list_with_ext _
    (λ b, sum_list_with (λ e, pair_occurrences a b (numbers e)) results)).
  2:{ intros b _. apply co_count_co_occurrence. }
  rewrite count_of_number_frequencies.
  induction Hvalid as [|e results (Hlen & Hnd & Hrange) Hvalid IH].
  - simpl. induction (seqZ 1 58); simpl; [done|]. done.
  - cbn [sum_list_with].
    rewrite (sum_list_with_add (λ b, pair_occurrences a b (numbers e))
               (λ b, sum_list_with (λ e, pair_occurrences a b (numbers e)) results)).
    rewrite IH.
    rewrite (sum_pair_occurrences (seqZ 1 58)); [lia | apply NoDup_seqZ | | done].
    eapply Forall_impl; [exact Hrange|]. intros x Hx. simpl in Hx.
    apply elem_of_seqZ. lia.
Qed.

Lemma co_occurrence_row_sum_witness :
  sum_list_with (co_count (co_occurrence three_draws) 1) (seqZ 1 58) = 15%nat.
Proof. exact (co_occurrence_row_sum three_draws 1 three_draws_valid). Defined.

(** * Further properties of the predictor *)

(** ** The pool *)

Lemma most_common_keys_NoDup (k : nat) (c : Counter) :
  NoDup (Dict.keys c) → NoDup (most_common k c).*1.
Proof.
  intros Hc. unfold most_common. rewrite fmap_take.
  eapply sublist_NoDup; [|apply sublist_take].
  unfold Dict.keys in Hc. by rewrite sorted_Permutation.
Qed.

Lemma most_common_length (k : nat) (c : Counter) :
  length (most_common k c).*1 = (k `min` length c)%nat.
Proof. unfold most_common. by rewrite length_fmap, length_take, sorted_length. Qed.

(** The pool of [predict_next_numbers] holds 20 observed numbers (all of
    them when there are fewer), each once, and no number outside the pool
    is more frequent than a number of the pool. *)
Theorem pool_most_frequent (results : list entry) :
  let freq := number_frequencies results in
  let top_nums := (most_common 20 freq).*1 in
  length top_nums = (20 `min` length freq)%nat
  ∧ NoDup top_nums
  ∧ (∀ x, x ∈ top_nums → observed results x)
  ∧ (∀ x y, x ∈ top_nums → observed results y → y ∉ top_nums →
       (count_of freq y ≤ count_of freq x)%nat).
Proof.
  intros freq top_nums.
  pose proof (number_frequencies_NoDup results) as Hnd. fold freq in Hnd.
  split_and!.
  - apply most_common_length.
  - by apply most_common_keys_NoDup.
  - intros x Hx. eapply Forall_forall in Hx; [exact Hx | apply top_nums_observed].
  - intros x y (p & -> & Hp)%list_elem_of_fmap Hy Hout.
    apply elem_of_keys_number_frequencies in Hy. fold freq in Hy.
    apply list_elem_of_fmap in Hy as (q & -> & Hq).
    rewrite <- (item_count_of freq q), <- (item_count_of freq p);
      [|done|by eapply most_common_subseteq|done..].
    pose proof (sorted_by_count_desc freq) as Hsorted.
    rewrite <- (take_drop 20 (sorted by_count_desc freq)) in Hsorted.
    apply (StronglySorted_app_1_elem_of _ _ _ p q) in Hsorted; [done|done|].
    apply (elem_of_sorted by_count_desc) in Hq.
    rewrite <- (take_drop 20 (sorted by_count_desc freq)) in Hq.
    apply elem_of_app in Hq as [Hq|Hq]; [|done].
    destruct Hout. by apply list_elem_of_fmap_2.
Qed.

(** ** Seeds are drawn without replacement *)

Lemma insert_Permutation (l : list Z) (j : nat) (x y : Z) :
  l !! j = Some x → x :: <[j := y]> l ≡ₚ l ++ [y].
Proof.
  revert j. induction l as [|a l IH]; intros [|j] Hj; simplify_eq/=.
  - constructor. apply Permutation_cons_append.
  - rewrite Permutation_swap. constructor. by apply IH.
Qed.

Lemma sample_step_Permutation (pool : list Z) (j m : nat) (x y : Z) :
  (j < m)%nat → pool !! j = Some x → pool !! (m - 1)%nat = Some y →
  x :: take (m - 1) (<[j := y]> pool) ≡ₚ take m pool.
Proof.
  intros Hj Hx Hy. replace m with (S (m - 1)) at 2 by lia.
  rewrite (take_S_r _ _ y) by done.
  destruct (decide (j = m - 1)%nat) as [->|Hne].
  - rewrite take_insert_ge by done. simplify_eq.
    apply Permutation_cons_append.
  - rewrite take_insert_lt by lia. apply insert_Permutation.
    rewrite lookup_take_lt by lia. done.
Qed.

Lemma sample_loop_sub (k m : nat) (pool : list Z) (r : rng) :
  (k ≤ m ≤ length pool)%nat →
  ∃ seeds r' rest,
    sample_loop k m pool r = Ok (seeds, r')
    ∧ length seeds = k
    ∧ seeds ++ rest ≡ₚ take m pool.
Proof.
  revert m pool r. induction k as [|k IH]; intros m pool r Hm; simpl.
  - exists [], r, (take m pool). by split_and!.
  - destruct (item_lt pool (r 0%nat `mod` m)%nat) as (x & -> & Hx).
    { pose proof (Nat.mod_upper_bound (r 0%nat) m). lia. }
    destruct (item_lt pool (m - 1)) as (y & -> & Hy); [lia|]. simpl.
    destruct (IH (m - 1)%nat (<[(r 0%nat `mod` m)%nat := y]> pool) (tail_rng r))
      as (seeds & r2 & rest & -> & Hlen & Hperm); [rewrite length_insert; lia|].
    simpl. exists (x :: seeds), r2, rest. split_and!; [done | by rewrite <- Hlen |].
    simpl. rewrite Hperm. apply sample_step_Permutation; [|done..].
    apply Nat.mod_upper_bound. lia.
Qed.

(** [random.sample(population, k)] raises [ValueError] when [k] exceeds
    the population and otherwise returns [k] elements taken from [k]
    different positions: together with the elements left over they make up
    the population. *)
Theorem sample_without_replacement (population : list Z) (k : nat) (r : rng) :
  if decide (k ≤ length population)%nat then
    ∃ seeds r' rest,
      sample population k r = Ok (seeds, r')
      ∧ length seeds = k
      ∧ seeds ++ rest ≡ₚ population
  else sample population k r = Raise "ValueError".
Proof.
  unfold sample. case_decide as Hk.
  - destruct (Nat.ltb_spec (length population) k); [lia|].
    destruct (sample_loop_sub k (length population) population r)
      as (seeds & r' & rest & ? & ? & Hperm); [lia|].
    rewrite firstn_all in Hperm. eauto 10.
  - by destruct (Nat.ltb_spec (length population) k); [|lia].
Qed.

Lemma sample_NoDup (population seeds : list Z) (k : nat) (r r' : rng) :
  NoDup population → sample population k r = Ok (seeds, r') →
  NoDup seeds ∧ length seeds = k.
Proof.
  intros Hnd Hs. unfold sample in Hs.
  destruct (Nat.ltb_spec (length population) k); [done|].
  destruct (sample_loop_sub k (length population) population r)
    as (seeds' & r2 & rest & Hs' & Hlen & Hperm); [lia|].
  rewrite Hs in Hs'. simplify_eq. split; [|done].
  rewrite firstn_all in Hperm. rewrite <- Hperm in Hnd.
  by apply NoDup_app in Hnd as [? _].
Qed.

(** ** The size of a prediction *)

Section prediction_size.
Variable top_n : nat.
Variable co : CoMatrix.
Variable top_nums : list Z.

Implicit Types (prediction : gset Z) (r : rng).

Lemma add_partner_subseteq prediction p :
  prediction ⊆ add_partner top_n prediction p.
Proof. unfold add_partner. destruct (_ <? _)%nat; set_solver. Qed.

Lemma add_partners_subseteq prediction seed :
  prediction ⊆ add_partners top_n co prediction seed.
Proof.
  unfold add_partners. destruct (Dict.mem seed co); [|done].
  generalize (take 2 (sorted_partners co seed)). intros ps. revert prediction.
  induction ps as [|p ps IH]; intros prediction; simpl; [done|].
  etrans; [apply (add_partner_subseteq prediction p) | apply IH].
Qed.

Lemma add_partners_seeds_subseteq (seeds : list Z) prediction :
  prediction ⊆ fold_left (add_partners top_n co) seeds prediction.
Proof.
  revert prediction. induction seeds as [|s seeds IH]; intros prediction; simpl; [done|].
  etrans; [apply (add_partners_subseteq prediction s) | apply IH].
Qed.

(** The loop returns what it was entered with, when that has [top_n]
    numbers or more, and exactly [top_n] numbers otherwise. *)
Lemma fill_size_max (fuel : nat) prediction prediction' r r' :
  fill top_n top_nums fuel prediction r = Ok (prediction', r') →
  size prediction' = (top_n `max` size prediction)%nat.
Proof.
  revert prediction r. induction fuel as [|fuel IH]; intros prediction r;
    rewrite fill_unfold;
    destruct (Nat.ltb_spec (size prediction) top_n) as [Hlt|Hge]; try done;
    try (intros ?; simplify_eq; lia).
  intros H. case_result H. apply fill_step_Ok in E as (x & Hx & ->).
  apply IH in H. pose proof (size_add_le x prediction). lia.
Qed.

Lemma predict_one_size (fuel : nat) r r' (p : list Z) :
  NoDup top_nums →
  predict_one top_n co top_nums fuel r = Ok (p, r') →
  length p = (top_n `max` (2 `min` length top_nums))%nat
  ∧ StronglySorted Z.lt p.
Proof.
  unfold predict_one. intros Hnd H. case_result H. case_result H. simplify_eq.
  apply (sample_NoDup top_nums) in E as [Hseeds Hlen]; [|done].
  apply fill_size_max in E0. split; [|apply sorted_ltb_ascending, NoDup_elements].
  rewrite sorted_length. change (length (elements g)) with (size g). rewrite E0.
  set (seeded0 := (∅ ∪ list_to_set l : gset Z)) in *.
  assert (size seeded0 = length l) as Hsize.
  { unfold seeded0. rewrite union_empty_l_L. by apply size_list_to_set. }
  pose proof (subseteq_size _ _ (add_partners_seeds_subseteq l seeded0)).
  pose proof (add_partners_seeds_size top_n co l seeded0
                (top_n `max` size seeded0)%nat).
  lia.
Qed.
End prediction_size.

(** Whatever the records hold, every call that returns gives
    [n_predictions] predictions, each strictly ascending and of exactly
    [top_n] numbers; only when [top_n] is below the number of seeds (two, or
    the size of a smaller pool) does a prediction hold the seeds alone. *)
Theorem predictions_sizes (fuel : nat) (results : list entry)
    (top_n n_predictions : nat) (r r' : rng) (predictions : list (list Z)) :
  predict_next_numbers fuel results top_n n_predictions r = Ok (predictions, r') →
  length predictions = n_predictions
  ∧ Forall (λ p,
      length p = (top_n `max` (2 `min` (20 `min` length (number_frequencies results))))%nat
      ∧ StronglySorted Z.lt p) predictions.
Proof.
  unfold predict_next_numbers. intros H.
  eapply predict_loop_Ok in H as [H Hlen]; [split; [exact Hlen | exact H]|].
  intros r0 r1 p Hp. simpl.
  apply predict_one_size in Hp.
  - by rewrite most_common_length in Hp.
  - apply most_common_keys_NoDup, number_frequencies_NoDup.
Qed.

Lemma predictions_sizes_witness :
  length [[1; 2; 3; 4; 7; 11]; [1; 2; 3; 8; 12; 13]; [1; 2; 4; 6; 8; 9]] = 3%nat
  ∧ Forall (λ p,
      length p = (6 `max` (2 `min` (20 `min` length (number_frequencies three_draws))))%nat
      ∧ StronglySorted Z.lt p)
      [[1; 2; 3; 4; 7; 11]; [1; 2; 3; 8; 12; 13]; [1; 2; 4; 6; 8; 9]].
Proof.
  eapply (predictions_sizes 100 three_draws 6 3 stride_rng).
  vm_compute. reflexivity.
Defined.

(** ** A record set with exactly [top_n] numbers *)

(** When the records hold exactly [top_n] distinct numbers, every
    prediction that is returned is the ascending list of all of them. *)
Theorem prediction_forced (fuel : nat) (results : list entry)
    (top_n n_predictions : nat) (r r' : rng) (predictions : list (list Z)) :
  length (number_frequencies results) = top_n → (2 ≤ top_n)%nat →
  predict_next_numbers fuel results top_n n_predictions r = Ok (predictions, r') →
  Forall (λ p, p = sorted Z.ltb (Dict.keys (number_frequencies results))) predictions.
Proof.
  intros Hlen Htop H. unfold predict_next_numbers in H.
  eapply predict_loop_Ok in H as [H _]; [exact H|].
  intros r0 r1 p Hp. simpl.
  pose proof (number_frequencies_NoDup results) as Hnd.
  destruct (predict_one_shape _ _ _ _ _ _ p Htop Hp) as [Hp_len Hp_sorted].
  apply (predict_one_P _ _ _ (λ x, x ∈ Dict.keys (number_frequencies results))) in Hp.
  2:{ apply Forall_forall. intros x. apply top_nums_keys. }
  2:{ intros a q Hq. apply elem_of_keys_number_frequencies.
      by apply (co_rows_observed results a q). }
  assert (NoDup p) as Hp_nd.
  { clear -Hp_sorted. induction Hp_sorted as [|x l Hl IH Hx]; constructor; [|done].
    intros Hin. eapply Forall_forall in Hx; [|exact Hin]. by apply Z.lt_irrefl in Hx. }
  apply (StronglySorted_unique_strong Z.lt); [| done | |].
  - intros x1 x2 _ _ H1 H2. lia.
  - by apply sorted_ltb_ascending.
  - rewrite sorted_Permutation. apply submseteq_length_Permutation.
    + apply NoDup_submseteq; [done|]. intros x Hx.
      eapply Forall_forall in Hp; eauto.
    + unfold Dict.keys. rewrite length_fmap. lia.
Qed.

Lemma prediction_forced_witness :
  Forall (λ p, p = sorted Z.ltb (Dict.keys (number_frequencies one_draw)))
    [[1; 2; 3; 4; 5; 6]; [1; 2; 3; 4; 5; 6]].
Proof.
  eapply (prediction_forced 100 one_draw 6 2 counting_rng).
  - reflexivity.
  - lia.
  - vm_compute. reflexivity.
Defined.

(** ** The whole call returns under a fair generator *)

Lemma sample_loop_fair (n k m : nat) (pool seeds : list Z) (r r' : rng) :
  sample_loop k m pool r = Ok (seeds, r') → fair n r → fair n r'.
Proof.
  revert m pool seeds r. induction k as [|k IH]; intros m pool seeds r H Hr; simpl in H.
  - by simplify_eq.
  - unfold randbelow in H. simpl in H.
    case_result H. case_result H. case_result H. simplify_eq.
    eapply IH; [exact E1|]. by apply fair_tail.
Qed.

Lemma sample_fair (n k : nat) (population seeds : list Z) (r r' : rng) :
  sample population k r = Ok (seeds, r') → fair n r → fair n r'.
Proof.
  unfold sample. destruct (_ <? _)%nat; [done|]. apply sample_loop_fair.
Qed.

Section returns.
Variable top_n : nat.
Variable co : CoMatrix.
Variable top_nums : list Z.

Implicit Types (prediction : gset Z) (r : rng).

Lemma fill_fair (n fuel : nat) prediction prediction' r r' :
  fill top_n top_nums fuel prediction r = Ok (prediction', r') →
  fair n r → fair n r'.
Proof.
  revert prediction r. induction fuel as [|fuel IH]; intros prediction r;
    rewrite fill_unfold; destruct (_ <? _)%nat; try done;
    try (intros ? ?; by simplify_eq).
  intros H Hr. case_result H. unfold fill_step in E. case_result E. simplify_eq.
  eapply IH; [exact H|].
  destruct top_nums as [|y l]; [done|]. unfold choice, randbelow in E0.
  case_result E0. simplify_eq. by apply fair_tail.
Qed.

(** More fuel does not change what a run returns. *)
Lemma fill_more_fuel (fuel extra : nat) prediction r (res : gset Z * rng) :
  fill top_n top_nums fuel prediction r = Ok res →
  fill top_n top_nums (fuel + extra) prediction r = Ok res.
Proof.
  revert prediction r. induction fuel as [|fuel IH]; intros prediction r;
    rewrite !fill_unfold; destruct (_ <? _)%nat; try done.
  simpl. intros H. case_result H. by apply IH.
Qed.

Lemma predict_one_more_fuel (fuel extra : nat) r (res : list Z * rng) :
  predict_one top_n co top_nums fuel r = Ok res →
  predict_one top_n co top_nums (fuel + extra) r = Ok res.
Proof.
  unfold predict_one. intros H. case_result H. case_result H.
  cbn [mbind result_bind]. by rewrite (fill_more_fuel _ extra _ _ _ E0).
Qed.

Lemma predict_loop_more_fuel (fuel extra n_predictions : nat) r
    (res : list (list Z) * rng) :
  predict_loop top_n co top_nums fuel n_predictions r = Ok res →
  predict_loop top_n co top_nums (fuel + extra) n_predictions r = Ok res.
Proof.
  revert r res. induction n_predictions as [|n IH]; intros r res H; simpl in *; [done|].
  case_result H. case_result H.
  rewrite (predict_one_more_fuel _ extra _ _ E). simpl.
  by rewrite (IH _ _ E0).
Qed.

Hypothesis enough : (top_n ≤ size (list_to_set top_nums : gset Z))%nat.

Lemma predict_one_returns r :
  fair (length top_nums) r →
  ∃ fuel p r',
    predict_one top_n co top_nums fuel r = Ok (p, r')
    ∧ fair (length top_nums) r'.
Proof.
  intros Hr.
  destruct (sample_total top_nums (2 `min` length top_nums) r) as (seeds & r1 & Hs); [lia|].
  pose proof (sample_fair _ _ _ _ _ _ Hs Hr) as Hr1.
  destruct (fill_returns_fair top_n top_nums enough _
              (fold_left (add_partners top_n co) seeds (∅ ∪ list_to_set seeds)) r1
              (Nat.le_refl _) Hr1)
    as (fuel & prediction' & r2 & Hfill & _ & _).
  exists fuel, (sorted Z.ltb (elements prediction')), r2. split.
  - unfold predict_one. rewrite Hs. simpl. by rewrite Hfill.
  - by eapply fill_fair.
Qed.

Lemma predict_loop_returns (n_predictions : nat) r :
  fair (length top_nums) r →
  ∃ fuel predictions r',
    predict_loop top_n co top_nums fuel n_predictions r = Ok (predictions, r')
    ∧ fair (length top_nums) r'.
Proof.
  revert r. induction n_predictions as [|n IH]; intros r Hr.
  - exists 0%nat, [], r. by split.
  - destruct (predict_one_returns r Hr) as (fuel1 & p & r1 & Hp & Hr1).
    destruct (IH r1 Hr1) as (fuel2 & predictions & r2 & Hrest & Hr2).
    exists (fuel1 + fuel2)%nat, (p :: predictions), r2. split; [|done].
    simpl. rewrite (predict_one_more_fuel _ fuel2 _ _ Hp). simpl.
    rewrite (Nat.add_comm fuel1 fuel2).
    by rewrite (predict_loop_more_fuel _ fuel1 _ _ _ Hrest).
Qed.
End returns.

(** When the records hold at least [top_n] distinct numbers and [top_n] is
    at most 20, the size of the pool, the call returns its [n_predictions]
    predictions under every fair generator, however many are asked for. *)
Theorem predict_returns_fair (results : list entry) (top_n n_predictions : nat)
    (r : rng) :
  (top_n ≤ 20)%nat →
  (top_n ≤ length (number_frequencies results))%nat →
  fair (20 `min` length (number_frequencies results)) r →
  ∃ fuel predictions r',
    predict_next_numbers fuel results top_n n_predictions r = Ok (predictions, r')
    ∧ length predictions = n_predictions.
Proof.
  intros Htop Hlen Hr. unfold predict_next_numbers.
  set (top_nums := (most_common 20 (number_frequencies results)).*1).
  assert (length top_nums = (20 `min` length (number_frequencies results))%nat) as Hpool
    by apply most_common_length.
  destruct (predict_loop_returns top_n (co_occurrence results) top_nums) with
    (n_predictions := n_predictions) (r := r)
    as (fuel & predictions & r' & Hloop & _).
  - rewrite size_list_to_set; [lia|].
    apply most_common_keys_NoDup, number_frequencies_NoDup.
  - by rewrite Hpool.
  - exists fuel, predictions, r'. split; [done|].
    by destruct (predict_loop_Ok top_n (co_occurrence results) top_nums (λ _, True)
                   fuel n_predictions r r' predictions) as [_ ?].
Qed.

Lemma predict_returns_fair_witness :
  ∃ fuel predictions r',
    predict_next_numbers fuel three_draws 6 3 counting_rng = Ok (predictions, r')
    ∧ length predictions = 3%nat.
Proof.
  apply (predict_returns_fair three_draws 6 3 counting_rng).
  - lia.
  - vm_compute. lia.
  - apply counting_rng_fair.
Defined.

(** * Further properties of the row loop *)

(** ** Which rows fail, and what a failure costs *)

Lemma for_each_int_Ok (max_str_digits : nat) (tokens : list string) :
  Forall (λ n, ¬ over_limit max_str_digits n) tokens →
  for_each (int max_str_digits) tokens = Ok (decimal_value <$> tokens).
Proof.
  induction 1 as [|n tokens Hn Htokens IH]; simpl; [done|].
  rewrite IH. unfold int, over_limit in *.
  destruct (Nat.ltb_spec 0 max_str_digits), (Nat.ltb_spec max_str_digits (String.length n));
    simpl; try lia; done.
Qed.

Lemma for_each_int_Raise (max_str_digits : nat) (tokens : list string) :
  Exists (over_limit max_str_digits) tokens →
  for_each (int max_str_digits) tokens = Raise "ValueError".
Proof.
  induction 1 as [n tokens [Hpos Hn]|n tokens Htokens IH]; simpl.
  - unfold int.
    destruct (Nat.ltb_spec 0 max_str_digits), (Nat.ltb_spec max_str_digits (String.length n));
      simpl; try lia; done.
  - destruct (int_cases max_str_digits n) as [-> | ->]; simpl; [|done]. by rewrite IH.
Qed.

(** A row whose numbers cell, if it has one, is ASCII text fails, with
    [ValueError], exactly when it has at least two cells and either its
    date does not parse or one of the all-digit tokens of its second cell
    has more digits than [int] accepts.  (On a cell with characters outside
    ASCII [int] can fail for another reason, which is left out.) *)
Theorem parse_row_raises (strptime : string → option datetime)
    (max_str_digits : nat) (cols : list string) (exc : string) :
  (∀ nums_str, cols !! 1%nat = Some nums_str → ascii_text nums_str) →
  parse_row strptime max_str_digits cols = Raise exc
  ↔ exc = "ValueError"%string
    ∧ ∃ date_str nums_str rest,
        cols = date_str :: nums_str :: rest
        ∧ (strptime date_str = None
           ∨ Exists (over_limit max_str_digits)
               (filter (λ n, isdigit n = true) (split "-" nums_str))).
Proof.
  intros _. destruct cols as [|date_str [|nums_str rest]].
  - split; [done | by intros (_ & ? & ? & ? & ? & _)].
  - split; [done | by intros (_ & ? & ? & ? & ? & _)].
  - simpl. unfold parse_numbers.
    set (tokens := filter (λ n, isdigit n = true) (split "-" nums_str)).
    destruct (strptime date_str) as [d|] eqn:Hd; simpl.
    + destruct (decide (Exists (over_limit max_str_digits) tokens)) as [Hex|Hall].
      * rewrite for_each_int_Raise by done. simpl. split.
        -- intros [= <-]. split; [done|]. exists date_str, nums_str, rest. auto.
        -- by intros [-> _].
      * rewrite for_each_int_Ok by (by apply not_Exists_Forall; [apply _|]). simpl.
        split; [done|]. intros (_ & ? & ? & ? & [= <- <- <-] & [?|?]); [congruence|done].
    + split.
      * intros [= <-]. split; [done|]. exists date_str, nums_str, rest. auto.
      * by intros [-> _].
Qed.

Lemma parse_row_raises_witness :
  parse_row no_date 4300 ["soon"; "1-2-3"]%string = Raise "ValueError"
  ↔ "ValueError"%string = "ValueError"%string
    ∧ ∃ date_str nums_str rest,
        ["soon"; "1-2-3"]%string = date_str :: nums_str :: rest
        ∧ (no_date date_str = None
           ∨ Exists (over_limit 4300)
               (filter (λ n, isdigit n = true) (split "-" nums_str))).
Proof.
  apply (parse_row_raises no_date 4300 ["soon"; "1-2-3"]%string "ValueError").
  intros nums_str Hcell. injection Hcell as <-. reflexivity.
Defined.

Lemma parse_row_cases (strptime : string → option datetime)
    (max_str_digits : nat) (cols : list string) :
  (∃ o, parse_row strptime max_str_digits cols = Ok o)
  ∨ parse_row strptime max_str_digits cols = Raise "ValueError".
Proof.
  destruct cols as [|date_str [|nums_str rest]]; simpl; eauto.
  destruct (strptime date_str); simpl; [|by right].
  destruct (parse_numbers_cases max_str_digits nums_str) as [-> | ->]; simpl; eauto.
Qed.

Section rows_loop_facts.
Variable strptime : string → option datetime.
Variable max_str_digits : nat.

Lemma rows_loop_Ok (rows : list (list string)) (results : list entry) :
  Forall (λ cols, ∃ o, parse_row strptime max_str_digits cols = Ok o) rows →
  rows_loop strptime max_str_digits rows results
  = Ok (results ++ (rows ≫= row_entries strptime max_str_digits)).
Proof.
  intros Hrows. revert results.
  induction Hrows as [|cols rows [o Ho] Hrows IH]; intros results; simpl.
  - by rewrite app_nil_r.
  - rewrite Ho. simpl. rewrite IH. unfold row_entries at 2. rewrite Ho.
    destruct o as [e|]; [by rewrite <- app_assoc | done].
Qed.

Lemma rows_loop_Raise (rows : list (list string)) (results : list entry) :
  Exists (λ cols, ∃ exc, parse_row strptime max_str_digits cols = Raise exc) rows →
  ∃ exc, rows_loop strptime max_str_digits rows results = Raise exc.
Proof.
  intros Hrows. revert results.
  induction Hrows as [cols rows [exc Hexc]|cols rows Hrows IH]; intros results; simpl.
  - rewrite Hexc. simpl. eauto.
  - destruct (parse_row_cases strptime max_str_digits cols) as [[o ->] | ->]; simpl; eauto.
Qed.
End rows_loop_facts.

(** One failing row empties the whole history: [fetch_rows] returns the
    records of all rows with at least two cells, in row order, when no
    row fails, and the empty list as soon as one row does. *)
Theorem fetch_rows_all_or_nothing (strptime : string → option datetime)
    (max_str_digits : nat) (rows : list (list string)) :
  (Exists (λ cols, ∃ exc, parse_row strptime max_str_digits cols = Raise exc) rows →
   fetch_rows strptime max_str_digits rows = [])
  ∧ (Forall (λ cols, ∀ exc, parse_row strptime max_str_digits cols ≠ Raise exc) rows →
     fetch_rows strptime max_str_digits rows
     = rows ≫= row_entries strptime max_str_digits).
Proof.
  unfold fetch_rows. split.
  - intros [exc ->]%(rows_loop_Raise strptime max_str_digits rows []). done.
  - intros Hrows. rewrite rows_loop_Ok; [done|].
    eapply Forall_impl; [exact Hrows|]. intros cols Hcols. simpl in Hcols.
    destruct (parse_row_cases strptime max_str_digits cols) as [?|?]; [done|].
    by destruct (Hcols "ValueError"%string).
Qed.

(** Rows with fewer than two cells never matter: dropping them changes
    nothing, whether the other rows parse or not. *)
Theorem fetch_rows_short_rows (strptime : string → option datetime)
    (max_str_digits : nat) (rows : list (list string)) :
  fetch_rows strptime max_str_digits (filter (λ cols, (2 ≤ length cols)%nat) rows)
  = fetch_rows strptime max_str_digits rows.
Proof.
  unfold fetch_rows.
  assert (∀ results,
    rows_loop strptime max_str_digits (filter (λ cols, (2 ≤ length cols)%nat) rows) results
    = rows_loop strptime max_str_digits rows results) as ->; [|done].
  induction rows as [|cols rows IH]; intros results; [done|].
  rewrite filter_cons. case_decide as Hlen.
  - simpl. destruct (parse_row _ _ cols); simpl; [apply IH | done..].
  - rewrite IH. destruct cols as [|c1 [|c2 cols]]; simpl in *; [done | done | lia].
Qed.

(** ** Splitting a cell *)

Lemma split_cons_tokens (sep : ascii) (s : string) :
  ∃ tok toks, split sep s = tok :: toks.
Proof.
  destruct s as [|c s]; simpl; [eauto|].
  destruct (Ascii.eqb c sep); [eauto|]. destruct (split sep s); eauto.
Qed.

(** [sep.join(s.split(sep))] is [s]; no token holds the separator; and
    there is one token more than there are separators in [s] (so never
    none). *)
Theorem split_join (sep : ascii) (s : string) :
  String.concat (String sep EmptyString) (split sep s) = s
  ∧ Forall (λ tok, sep ∉ list_ascii_of_string tok) (split sep s)
  ∧ length (split sep s)
    = S (length (filter (λ c, c = sep) (list_ascii_of_string s))).
Proof.
  induction s as [|c s (IHjoin & IHtok & IHlen)]; simpl.
  - split_and!; [done | | done]. repeat constructor. apply not_elem_of_nil.
  - destruct (Ascii.eqb_spec c sep) as [->|Hne].
    + destruct (split_cons_tokens sep s) as (tok & toks & Hs).
      rewrite filter_cons, decide_True by done. rewrite Hs in *. simpl in *.
      split_and!; [by rewrite IHjoin | | by rewrite IHlen].
      constructor; [apply not_elem_of_nil | done].
    + rewrite filter_cons, decide_False by done.
      destruct (split sep s) as [|tok toks] eqn:Hs; simpl in *; [done|].
      split_and!; [| |done].
      * destruct toks; simpl in *; by rewrite <- IHjoin.
      * apply Forall_cons in IHtok as [Htok Htoks]. constructor; [|done].
        simpl. intros [?|?]%elem_of_cons; done.
Qed.

Lemma split_app (sep : ascii) (s1 s2 : string) :
  split sep (s1 ++ String sep s2) = split sep s1 ++ split sep s2.
Proof.
  induction s1 as [|c s1 IH]; simpl.
  - by rewrite Ascii.eqb_refl.
  - rewrite IH. destruct (Ascii.eqb c sep); [done|].
    by destruct (split_cons_tokens sep s1) as (tok & toks & ->).
Qed.

Lemma for_each_app {A B} (f : A → result B) (l1 l2 : list A) :
  for_each f (l1 ++ l2)
  = xs ← for_each f l1; ys ← for_each f l2; Ok (xs ++ ys).
Proof.
  induction l1 as [|x l1 IH]; simpl.
  - by destruct (for_each f l2).
  - destruct (f x); simpl; [|done..]. rewrite IH.
    destruct (for_each f l1); simpl; [|done..]. by destruct (for_each f l2).
Qed.

Lemma parse_numbers_around_dash (max_str_digits : nat) (s1 s2 : string) :
  parse_numbers max_str_digits (s1 ++ String "-" s2)
  = xs ← parse_numbers max_str_digits s1;
    ys ← parse_numbers max_str_digits s2;
    Ok (xs ++ ys).
Proof.
  unfold parse_numbers. by rewrite split_app, filter_app, for_each_app.
Qed.

(** The numbers of a cell made of two parts around a ["-"] are the
    numbers of the first part followed by those of the second, and the cell
    fails when one of the parts does. *)
Theorem parse_numbers_app (max_str_digits : nat) (s1 s2 : string) :
  parse_numbers max_str_digits (s1 ++ String "-" s2)
  = xs ← parse_numbers max_str_digits s1;
    ys ← parse_numbers max_str_digits s2;
    Ok (xs ++ ys).
Proof.
  unfold parse_numbers. rewrite split_app, filter_app.
  apply for_each_app.
Qed.

(** ** The value of a token *)

Lemma list_ascii_of_string_app (s1 s2 : string) :
  list_ascii_of_string (s1 ++ s2)
  = list_ascii_of_string s1 ++ list_ascii_of_string s2.
Proof. induction s1 as [|c s1 IH]; simpl; [done|]. by rewrite IH. Qed.

Lemma length_list_ascii_of_string (s : string) :
  length (list_ascii_of_string s) = String.length s.
Proof. induction s as [|c s IH]; simpl; [done|]. by rewrite IH. Qed.

Lemma decimal_fold_acc (l : list ascii) (acc : Z) :
  fold_left (fun acc c => 10 * acc + digit_value c) l acc
  = acc * 10 ^ Z.of_nat (length l)
    + fold_left (fun acc c => 10 * acc + digit_value c) l 0.
Proof.
  revert acc. induction l as [|c l IH]; intros acc; simpl length; simpl fold_left.
  - simpl. lia.
  - rewrite (IH (10 * acc + digit_value c)), (IH (10 * 0 + digit_value c)).
    rewrite Nat2Z.inj_succ, Z.pow_succ_r by lia. lia.
Qed.

Lemma decimal_fold_bound (l : list ascii) :
  forallb is_digit l = true →
  fold_left (fun acc c => 10 * acc + digit_value c) l 0 < 10 ^ Z.of_nat (length l).
Proof.
  induction l as [|c l IH] using rev_ind; intros Hl; [simpl; lia|].
  rewrite forallb_app in Hl. apply andb_prop in Hl as [Hl Hc]. simpl in Hc.
  rewrite andb_true_r in Hc.
  rewrite fold_left_app, length_app. simpl.
  specialize (IH Hl).
  assert (digit_value c ≤ 9).
  { unfold is_digit, digit_value in *. apply andb_prop in Hc as [_ Hc].
    apply Nat.leb_le in Hc. lia. }
  replace (Z.of_nat (length l + 1)) with (Z.succ (Z.of_nat (length l))) by lia.
  rewrite Z.pow_succ_r by lia. lia.
Qed.

(** The value of a token is positional: appending [s2] shifts the value of
    [s1] by the length of [s2]; so leading zeros change nothing; and a
    token of [k] digits is worth less than [10 ^ k]. *)
Theorem decimal_value_positional (s1 s2 : string) :
  decimal_value (s1 ++ s2)
  = decimal_value s1 * 10 ^ Z.of_nat (String.length s2) + decimal_value s2
  ∧ decimal_value (String "0" s2) = decimal_value s2
  ∧ (isdigit s2 = true → 0 ≤ decimal_value s2 < 10 ^ Z.of_nat (String.length s2)).
Proof.
  unfold decimal_value. split_and!.
  - rewrite list_ascii_of_string_app, fold_left_app, decimal_fold_acc.
    by rewrite length_list_ascii_of_string.
  - done.
  - intros Hs. split; [by apply decimal_value_nonneg|].
    rewrite <- length_list_ascii_of_string. apply decimal_fold_bound.
    destruct s2; [done | exact Hs].
Qed.

(** * The frequency table *)

Lemma tuple_lt_trans : Transitive tuple_lt.
Proof. unfold tuple_lt. intros p q r. lia. Qed.

Lemma item_before_lt (y x : Z * nat) : item_before y x = true ↔ tuple_lt y x.
Proof.
  unfold item_before, tuple_lt.
  rewrite orb_true_iff, andb_true_iff, Z.ltb_lt, Z.eqb_eq, Nat.ltb_lt. done.
Qed.

Lemma sorted_item_before (c : Counter) :
  NoDup (Dict.keys c) → StronglySorted (λ p q, p.1 < q.1) (sorted item_before c).
Proof.
  intros Hc.
  assert (StronglySorted tuple_lt (sorted item_before c)) as Hsorted.
  { apply sorted_StronglySorted.
    - apply tuple_lt_trans.
    - intros y x. apply item_before_lt.
    - eapply StronglySorted_weaken; [|apply StronglySorted_NoDup].
      + intros [n1 v1] [n2 v2] Hne Hb.
        assert (¬ tuple_lt (n2, v2) (n1, v1)) as Hn.
        { rewrite <- item_before_lt. by rewrite Hb. }
        unfold tuple_lt in *. simpl in *.
        destruct (decide (n1 = n2)) as [->|?]; [|lia].
        destruct (decide (v1 = v2)) as [->|?]; [done | lia].
      + by apply NoDup_fmap_1 in Hc. }
  assert (NoDup (sorted item_before c).*1) as Hnd.
  { unfold Dict.keys in Hc. by rewrite sorted_Permutation. }
  induction Hsorted as [|p l Hl IH Hp]; constructor.
  - apply IH. rewrite fmap_cons in Hnd. by apply NoDup_cons in Hnd as [_ ?].
  - rewrite fmap_cons in Hnd. apply NoDup_cons in Hnd as [Hp1 _].
    apply Forall_forall. intros q Hq. eapply Forall_forall in Hp; [|exact Hq].
    destruct Hp as [?|[Heq _]]; [done|]. destruct Hp1. rewrite Heq.
    by apply list_elem_of_fmap_2.
Qed.

Lemma elem_of_number_frequencies (results : list entry) (p : Z * nat) :
  p ∈ number_frequencies results
  ↔ observed results p.1 ∧ p.2 = count_of (number_frequencies results) p.1.
Proof.
  pose proof (number_frequencies_NoDup results) as Hnd. split.
  - intros Hp. split; [|by apply item_count_of].
    apply elem_of_keys_number_frequencies. by apply list_elem_of_fmap_2.
  - intros [Hobs Hcount].
    apply elem_of_keys_number_frequencies, list_elem_of_fmap in Hobs as (q & Hq1 & Hq).
    pose proof (item_count_of _ q Hnd Hq) as Hq2.
    destruct p, q. simpl in *. by simplify_eq.
Qed.

(** The rows of the frequency chart are the observed numbers in strictly
    ascending order, each with its count. *)
Theorem freq_rows_ascending (results : list entry) :
  StronglySorted (λ p q, p.1 < q.1) (freq_rows results)
  ∧ ∀ n v, (n, v) ∈ freq_rows results
           ↔ observed results n ∧ v = count_of (number_frequencies results) n.
Proof.
  unfold freq_rows. split.
  - apply sorted_item_before, number_frequencies_NoDup.
  - intros n v. by rewrite elem_of_sorted, elem_of_number_frequencies.
Qed.

(** Unlike the pool, the frequency chart does not depend on the order of
    the records. *)
Theorem freq_rows_order_independent (results1 results2 : list entry) :
  results1 ≡ₚ results2 → freq_rows results1 = freq_rows results2.
Proof.
  intros Hperm. unfold freq_rows.
  apply (StronglySorted_unique_strong (λ p q : Z * nat, p.1 < q.1)).
  - intros p q _ _ H1 H2. lia.
  - apply sorted_item_before, number_frequencies_NoDup.
  - apply sorted_item_before, number_frequencies_NoDup.
  - rewrite !sorted_Permutation. apply NoDup_Permutation.
    + eapply NoDup_fmap_1, number_frequencies_NoDup.
    + eapply NoDup_fmap_1, number_frequencies_NoDup.
    + intros p. rewrite !elem_of_number_frequencies.
      rewrite !count_of_number_frequencies. unfold observed.
      rewrite Hperm. by setoid_rewrite Hperm.
Qed.

Lemma freq_rows_order_independent_witness :
  freq_rows two_draws = freq_rows (reverse two_draws).
Proof.
  apply (freq_rows_order_independent two_draws (reverse two_draws)).
  symmetry. apply reverse_Permutation.
Defined.

(** * The rendering of numbers *)

Lemma digit_char_spec (d : Z) :
  0 ≤ d ≤ 9 → digit_value (digit_char d) = d ∧ is_digit (digit_char d) = true.
Proof.
  intros Hd.
  assert (d = 0 ∨ d = 1 ∨ d = 2 ∨ d = 3 ∨ d = 4 ∨ d = 5 ∨ d = 6 ∨ d = 7 ∨ d = 8 ∨ d = 9)
    as Hcases by lia.
  repeat (destruct Hcases as [->|Hcases]; [done|]). by subst.
Qed.

Lemma decimal_value_String (c : ascii) (s : string) :
  decimal_value (String c s)
  = digit_value c * 10 ^ Z.of_nat (String.length s) + decimal_value s.
Proof.
  unfold decimal_value. simpl. rewrite decimal_fold_acc.
  by rewrite length_list_ascii_of_string.
Qed.

Lemma digits_of_spec (fuel : nat) (n : Z) (acc : string) :
  0 ≤ n < 2 ^ Z.of_nat fuel →
  decimal_value (digits_of fuel n acc)
  = n * 10 ^ Z.of_nat (String.length acc) + decimal_value acc
  ∧ forallb is_digit (list_ascii_of_string (digits_of fuel n acc))
    = forallb is_digit (list_ascii_of_string acc)
  ∧ (String.length acc ≤ String.length (digits_of fuel n acc))%nat.
Proof.
  revert n acc. induction fuel as [|fuel IH]; intros n acc Hn.
  - change (2 ^ Z.of_nat 0) with 1 in Hn. assert (n = 0) as -> by lia.
    cbn [digits_of]. split_and!; [lia | done | done].
  - cbn [digits_of]. pose proof (Z.mod_pos_bound n 10) as Hmod.
    destruct (digit_char_spec (n `mod` 10)) as [Hval Hdig]; [lia|].
    destruct (Z.ltb_spec n 10) as [Hlt|Hge].
    + rewrite decimal_value_String, Hval.
      cbn [list_ascii_of_string forallb String.length]. rewrite Hdig.
      rewrite Z.mod_small by lia. split_and!; [done | done | lia].
    + destruct (IH (n `div` 10) (String (digit_char (n `mod` 10)) acc))
        as (IHval & IHdig & IHlen).
      { rewrite Nat2Z.inj_succ, Z.pow_succ_r in Hn by lia. split.
        - apply Z.div_pos; lia.
        - apply Z.div_lt_upper_bound; lia. }
      rewrite IHval, IHdig, decimal_value_String, Hval.
      cbn [list_ascii_of_string forallb String.length] in *. rewrite Hdig.
      rewrite Nat2Z.inj_succ, Z.pow_succ_r by lia.
      split_and!; [|done|lia].
      pose proof (Z.div_mod n 10). lia.
Qed.

Lemma digits_of_length (fuel : nat) (n : Z) (acc : string) :
  (String.length acc ≤ String.length (digits_of fuel n acc))%nat.
Proof.
  revert n acc. induction fuel as [|fuel IH]; intros n acc; cbn [digits_of]; [done|].
  destruct (n <? 10); [simpl; lia|].
  etrans; [|apply IH]. simpl. lia.
Qed.

Lemma digits_of_length_S (fuel : nat) (n : Z) (acc : string) :
  (S (String.length acc) ≤ String.length (digits_of (S fuel) n acc))%nat.
Proof.
  cbn [digits_of]. destruct (n <? 10); [simpl; lia|].
  etrans; [|apply digits_of_length]. simpl. lia.
Qed.

Lemma digits_spec (n : Z) :
  0 ≤ n →
  decimal_value (digits n) = n
  ∧ forallb is_digit (list_ascii_of_string (digits n)) = true
  ∧ (1 ≤ String.length (digits n))%nat
  ∧ (10 ≤ n → (2 ≤ String.length (digits n))%nat).
Proof.
  intros Hn. unfold digits.
  assert (n < 2 ^ Z.of_nat (S (Z.to_nat (Z.log2 n)))) as Hfuel.
  { rewrite Nat2Z.inj_succ, Z2Nat.id by apply Z.log2_nonneg.
    destruct (decide (n = 0)) as [->|?]; [done|]. apply Z.log2_spec. lia. }
  destruct (digits_of_spec _ n EmptyString (conj Hn Hfuel)) as (Hval & Hdig & _).
  split_and!.
  - rewrite Hval. change (decimal_value "") with 0.
    change (Z.of_nat (String.length "")) with 0. lia.
  - by rewrite Hdig.
  - apply (digits_of_length_S _ n EmptyString).
  - intros Hten.
    assert (1 ≤ Z.log2 n) as Hlog by (apply Z.log2_le_pow2; lia).
    destruct (Z.to_nat (Z.log2 n)) as [|f] eqn:Hf; [lia|].
    cbn [digits_of]. destruct (Z.ltb_spec n 10); [lia|].
    etrans; [|apply digits_of_length_S]. simpl. lia.
Qed.

Lemma format_02d_token (n : Z) :
  0 ≤ n → isdigit (format_02d n) = true ∧ decimal_value (format_02d n) = n.
Proof.
  intros Hn. destruct (digits_spec n Hn) as (Hval & Hdig & Hlen & _).
  unfold format_02d. destruct (Z.ltb_spec n 0); [lia|].
  destruct (Z.ltb_spec n 10).
  - split; [exact Hdig|]. rewrite decimal_value_String, Hval. done.
  - split; [|done].
    unfold isdigit. destruct (digits n); [simpl in Hlen; lia | exact Hdig].
Qed.



(** ** Reading back a rendered cell *)

Lemma split_no_sep (sep : ascii) (s : string) :
  sep ∉ list_ascii_of_string s → split sep s = [s].
Proof.
  induction s as [|c s IH]; simpl; [done|].
  intros [Hc Hs]%not_elem_of_cons. rewrite (IH Hs).
  destruct (Ascii.eqb_spec c sep); [congruence | done].
Qed.

Lemma digits_no_dash (l : list ascii) :
  forallb is_digit l = true → "-"%char ∉ l.
Proof.
  induction l as [|c l IH]; simpl; [intros _; apply not_elem_of_nil|].
  intros [Hc Hl]%andb_prop. apply not_elem_of_cons. split; [|auto].
  intros <-. done.
Qed.

Lemma parse_numbers_token (max_str_digits : nat) (tok : string) :
  isdigit tok = true → within_limit max_str_digits [tok] →
  parse_numbers max_str_digits tok = Ok [decimal_value tok].
Proof.
  intros Htok Hlim. unfold parse_numbers.
  rewrite split_no_sep.
  - rewrite filter_cons, decide_True by done. rewrite filter_nil. simpl.
    by rewrite int_within_limit.
  - apply digits_no_dash. destruct tok; [done | exact Htok].
Qed.

(** A cell made of the renderings of non-negative numbers joined by ["-"]
    is read back as exactly these numbers. *)
Theorem parse_numbers_rendered (max_str_digits : nat) (nums : list Z) :
  Forall (λ n, 0 ≤ n) nums →
  within_limit max_str_digits (format_02d <$> nums) →
  parse_numbers max_str_digits (String.concat "-" (format_02d <$> nums)) = Ok nums.
Proof.
  intros Hnums Hlim.
  assert (∀ n, n ∈ nums → within_limit max_str_digits [format_02d n]) as Hlim1.
  { intros n Hn. destruct Hlim as [?|Hlim]; [by left | right].
    constructor; [|done]. eapply Forall_forall in Hlim; [exact Hlim|].
    by apply list_elem_of_fmap_2. }
  clear Hlim. induction Hnums as [|x nums Hx Hnums IH]; [done|].
  destruct (format_02d_token x Hx) as (Hdig & Hval).
  destruct nums as [|y nums].
  - simpl. rewrite parse_numbers_token, Hval; [done | done |]. apply Hlim1. left.
  - change (String.concat "-" (format_02d <$> x :: y :: nums))
      with (format_02d x ++ String "-" (String.concat "-" (format_02d <$> y :: nums)))%string.
    rewrite parse_numbers_around_dash, (parse_numbers_token _ (format_02d x)), IH, Hval;
      [done | | done |].
    + intros n Hn. apply Hlim1. by right.
    + apply Hlim1. left.
Qed.

Lemma parse_numbers_rendered_witness :
  parse_numbers 4300 (String.concat "-" (format_02d <$> [1; 15; 23; 40; 51; 58]))
  = Ok [1; 15; 23; 40; 51; 58].
Proof.
  apply (parse_numbers_rendered 4300 [1; 15; 23; 40; 51; 58]).
  - repeat constructor; lia.
  - right. compute_done.
Defined.
